(** * GLPractice: ownership of OpenGL handles and the resource registry

    A shallow embedding of [include/application.hpp]: the handle wrappers
    [buffer], [vertex_array] and [shader], the name generator
    [states::next_name] and the registry [resource_manager::proxy].

    The OpenGL driver is external to the program.  It is modelled as a
    state that records every call issued to it and that hands out object
    names from a supply the theorems quantify over.  Logging ([LOG]) has no
    effect on the program state and is left out. *)

From stdpp Require Import gmap strings list fin_maps pretty.
From Stdlib Require Import ZArith Lia.

Local Open Scope Z_scope.

(** ** Machine integers *)

(** [gl::u32] is [GLuint]; a conversion to it reduces modulo 2^32. *)
Definition to_u32 (z : Z) : Z := z mod 2 ^ 32.

(** [gl::i32] is [GLint].  Signed overflow is written out as the
    two's-complement wrap-around the target machines perform. *)
Definition to_i32 (z : Z) : Z := (z + 2 ^ 31) mod 2 ^ 32 - 2 ^ 31.

(** Conversion of an integer to [bool] (as in [m_type(type)]) and of a
    [bool] to an integer (as in [gl::bind_buffer(m_type, ...)]). *)
Definition bool_of_int (z : Z) : bool := negb (z =? 0).
Definition int_of_bool (b : bool) : Z := if b then 1 else 0.

Definition GL_ARRAY_BUFFER : Z := 34962.
Definition GL_ELEMENT_ARRAY_BUFFER : Z := 34963.

(** ** The world the program runs in *)

(** The resource kinds a [proxy] can be instantiated at; each has its own
    global counter ([g_buffer_ct], ...) and its own prefix. *)
Inductive kind : Set :=
| Buffer | Camera | Mesh | Shader | Texture | VertexArray | Window.

Global Instance kind_eq_dec : EqDecision kind.
Proof. solve_decision. Defined.

(** Calls into the driver that allocate, free or bind an object. *)
Inductive gl_call : Set :=
| glGenBuffers (name : Z)
| glDeleteBuffers (name : Z)
| glBindBuffer (target name : Z)
| glGenVertexArrays (name : Z)
| glDeleteVertexArrays (name : Z)
| glCreateProgram (name : Z)
| glDeleteProgram (name : Z)
| glGetUniformLocation (program : Z) (uniform : string).

Global Instance gl_call_eq_dec : EqDecision gl_call.
Proof. solve_decision. Defined.

Record world : Type := World {
  g_ct : kind -> Z;                 (* states::g_buffer_ct, g_camera_ct, ... *)
  gl_supply : list Z;               (* the names the driver hands out next *)
  gl_uniforms : Z -> string -> Z;   (* what glGetUniformLocation answers *)
  gl_calls : list gl_call           (* the calls issued so far, oldest first *)
}.

(** Computations that read and update the world. *)
Definition GL (A : Type) : Type := world -> A * world.

Definition ret {A} (a : A) : GL A := fun w => (a, w).
Definition bind {A B} (c : GL A) (k : A -> GL B) : GL B :=
  fun w => let (a, w') := c w in k a w'.

Notation "x <- c ;; k" := (bind c (fun x => k))
  (at level 100, c at next level, right associativity).
Notation "c ;;; k" := (bind c (fun _ => k))
  (at level 100, right associativity).

Definition when (b : bool) (c : GL unit) : GL unit := if b then c else ret tt.

Definition issue (c : gl_call) : GL unit :=
  fun w => (tt, World (g_ct w) (gl_supply w) (gl_uniforms w) (gl_calls w ++ [c])).

(** The driver picks the name of a new object. *)
Definition fresh : GL Z :=
  fun w => (hd 0 (gl_supply w),
            World (g_ct w) (tl (gl_supply w)) (gl_uniforms w) (gl_calls w)).

(** The wrappers of [gl/opengl.hpp] the handle classes use. *)
Definition generate_buffer : GL Z := h <- fresh ;; issue (glGenBuffers h) ;;; ret h.
Definition delete_buffer (h : Z) : GL unit := issue (glDeleteBuffers h).
Definition bind_buffer (target h : Z) : GL unit := issue (glBindBuffer target h).
Definition generate_vertex_array : GL Z :=
  h <- fresh ;; issue (glGenVertexArrays h) ;;; ret h.
Definition delete_vertex_array (h : Z) : GL unit := issue (glDeleteVertexArrays h).
Definition create_program : GL Z := h <- fresh ;; issue (glCreateProgram h) ;;; ret h.
Definition delete_program (h : Z) : GL unit := issue (glDeleteProgram h).
Definition get_uniform_location (program : Z) (name : string) : GL Z :=
  fun w => (gl_uniforms w program name,
            World (g_ct w) (gl_supply w) (gl_uniforms w)
                  (gl_calls w ++ [glGetUniformLocation program name])).

Definition k_uniform_model_name : string := "model".
Definition k_uniform_view_name : string := "view".
Definition k_uniform_projection_name : string := "projection".

(** ** class buffer *)

Module buffer.

Record t : Type := mk {
  m_object : Z;       (* gl::u32 m_object = 0 *)
  m_type : bool;      (* bool m_type = GL_ARRAY_BUFFER *)
  m_owning : bool     (* bool m_owning = true *)
}.

(** [buffer(gl::e32 type = GL_ARRAY_BUFFER)]: the initializer generates a
    buffer and the body generates a second one over it. *)
Definition ctor_fresh (type : Z) : GL t :=
  _ <- generate_buffer ;;
  object <- generate_buffer ;;
  ret (mk object (bool_of_int type) true).

(** [buffer(gl::u32 object, gl::e32 type, bool owning = true)] *)
Definition ctor (object type : Z) (owning : bool) : GL t :=
  h <- (if object =? 0 then generate_buffer else ret object) ;;
  ret (mk h (bool_of_int type) (owning || (object =? 0))).

(** [buffer(buffer&& other)]: the new object and [other] afterwards. *)
Definition move_ctor (other : t) : t * t :=
  (mk (m_object other) (m_type other) (m_owning other),
   mk (m_object other) (m_type other) false).

(** [operator =(buffer&& other)]: [*this] and [other] afterwards. *)
Definition move_assign (self other : t) : GL (t * t) :=
  if m_object self =? m_object other then ret (self, other)
  else
    when (m_owning self) (delete_buffer (m_object self)) ;;;
    ret (mk (m_object other) (m_type other) (m_owning other),
         mk (m_object other) (m_type other) false).

Definition clear (self : t) : GL t :=
  if m_owning self
  then delete_buffer (m_object self) ;;; ret (mk (m_object self) (m_type self) false)
  else ret self.

(** [~buffer()] *)
Definition dtor (self : t) : GL unit := clear self ;;; ret tt.

(** [bind() const] *)
Definition bind (self : t) : GL unit :=
  bind_buffer (int_of_bool (m_type self)) (m_object self).

Definition unbind (self : t) : GL unit :=
  bind_buffer (int_of_bool (m_type self)) 0.

Definition is_wrapper_of (self : t) (object : Z) : bool := m_object self =? object.

(** [operator ==] *)
Definition equal (lhs rhs : t) : bool := m_object lhs =? m_object rhs.

End buffer.

(** ** class vertex_array *)

Module vertex_array.

Record t : Type := mk {
  m_object : Z;       (* gl::u32 m_object *)
  m_owning : bool     (* bool m_owning = true *)
}.

(** [vertex_array()] *)
Definition ctor_fresh : GL t :=
  object <- generate_vertex_array ;; ret (mk object true).

(** [vertex_array(gl::u32 object, bool owning = true)] *)
Definition ctor (object : Z) (owning : bool) : GL t :=
  h <- (if object =? 0 then generate_vertex_array else ret object) ;;
  ret (mk h (owning || (object =? 0))).

Definition move_ctor (other : t) : t * t :=
  (mk (m_object other) (m_owning other), mk (m_object other) false).

Definition move_assign (self other : t) : GL (t * t) :=
  if m_object self =? m_object other then ret (self, other)
  else
    when (m_owning self) (delete_vertex_array (m_object self)) ;;;
    ret (mk (m_object other) (m_owning other), mk (m_object other) false).

Definition clear (self : t) : GL t :=
  if m_owning self
  then delete_vertex_array (m_object self) ;;; ret (mk (m_object self) false)
  else ret self.

Definition dtor (self : t) : GL unit := clear self ;;; ret tt.

Definition is_wrapper_of (self : t) (object : Z) : bool := m_object self =? object.

Definition equal (lhs rhs : t) : bool := m_object lhs =? m_object rhs.

End vertex_array.

(** ** class shader *)

Module shader.

Record t : Type := mk {
  m_vertex_shader_path : option string;     (* char const*, nullptr by default *)
  m_fragment_shader_path : option string;
  m_program : Z;                            (* gl::u32 m_program = 0 *)
  m_uniform_model : Z;
  m_uniform_view : Z;
  m_uniform_projection : Z;
  m_owning : bool                           (* bool m_owning = true *)
}.

(** [shader() = default] *)
Definition ctor_default : t := mk None None 0 0 0 0 true.

(** [shader(gl::u32 program, gl::u32 uniform_model, gl::u32 uniform_view,
           gl::u32 uniform_projection, bool owning = true)].
    The members are initialized in declaration order; the body's
    [if (program != 0 && !owning) m_owning = false;] follows. *)
Definition ctor (program uniform_model uniform_view uniform_projection : Z)
    (owning : bool) : GL t :=
  p <- (if program =? 0 then create_program else ret program) ;;
  um <- (if uniform_model =? 0
         then l <- get_uniform_location p k_uniform_model_name ;; ret (to_u32 l)
         else ret uniform_model) ;;
  uv <- (if uniform_view =? 0
         then l <- get_uniform_location p k_uniform_view_name ;; ret (to_u32 l)
         else ret uniform_view) ;;
  up <- (if uniform_projection =? 0
         then l <- get_uniform_location p k_uniform_projection_name ;; ret (to_u32 l)
         else ret uniform_projection) ;;
  let m_owning0 := owning in
  ret (mk None None p um uv up
          (if negb (program =? 0) && negb owning then false else m_owning0)).

(** [shader(shader&& other)] *)
Definition move_ctor (other : t) : t * t :=
  (mk (m_vertex_shader_path other) (m_fragment_shader_path other)
      (m_program other) (m_uniform_model other) (m_uniform_view other)
      (m_uniform_projection other) (m_owning other),
   mk (m_vertex_shader_path other) (m_fragment_shader_path other)
      (m_program other) (m_uniform_model other) (m_uniform_view other)
      (m_uniform_projection other) false).

(** [operator =(shader&& other)]: the paths and [m_owning] of [*this] are
    not assigned, and the current program is deleted whenever it is not 0. *)
Definition move_assign (self other : t) : GL (t * t) :=
  if m_program self =? m_program other then ret (self, other)
  else
    when (negb (m_program self =? 0)) (delete_program (m_program self)) ;;;
    ret (mk (m_vertex_shader_path self) (m_fragment_shader_path self)
            (m_program other) (m_uniform_model other) (m_uniform_view other)
            (m_uniform_projection other) (m_owning self),
         mk (m_vertex_shader_path other) (m_fragment_shader_path other)
            (m_program other) (m_uniform_model other) (m_uniform_view other)
            (m_uniform_projection other) false).

(** [~shader()] *)
Definition dtor (self : t) : GL unit :=
  when (m_owning self) (delete_program (m_program self)).

Definition clear (self : t) : GL t :=
  owning' <- (if negb (m_program self =? 0) && m_owning self
              then delete_program (m_program self) ;;; ret false
              else ret (m_owning self)) ;;
  ret (mk (m_vertex_shader_path self) (m_fragment_shader_path self) 0 0 0 0 owning').

Definition is_wrapper_of (self : t) (program : Z) : bool := m_program self =? program.

Definition equal (lhs rhs : t) : bool := m_program lhs =? m_program rhs.

End shader.

(** ** class texture *)

Module texture.

Record t : Type := mk {
  m_texture : Z;            (* gl::u32 m_texture *)
  m_initialized : bool      (* bool m_initialized = false *)
}.

(** The implicit default constructor leaves [m_texture] uninitialized;
    the only default-constructed texture of the program
    ([m_record[new_name]] in [rename]) is assigned over at once. *)
Definition ctor_default : t := mk 0 false.

End texture.

(** ** states::next_name *)

Definition prefix_of (k : kind) : string :=
  match k with
  | VertexArray => "generated-vao-"
  | Buffer => "generated-bo-"
  | Camera => "generated-camera-"
  | Mesh => "generated-mesh-"
  | Shader => "generated-shader-"
  | Texture => "generated-texture-"
  | Window => "Generated Window "
  end.

Definition get_ct (k : kind) : GL Z := fun w => (g_ct w k, w).

Definition set_ct (k : kind) (v : Z) : GL unit :=
  fun w => (tt, World (fun k' => if decide (k' = k) then v else g_ct w k')
                      (gl_supply w) (gl_uniforms w) (gl_calls w)).

Section next_name.

Context {R : Type}.

(** The [while (true)] loop.  [ss] is the content of the string stream,
    which is created before the loop and written to on every iteration;
    every iteration increments the counter. *)
Fixpoint next_name_loop (fuel : nat) (prefix : string) (record : gmap string R)
    (hint ss : string) (counter : Z) : option (string * Z) :=
  match fuel with
  | O => None
  | S fuel' =>
      let ss' := ss +:+ hint +:+ prefix +:+ pretty counter in
      let counter' := to_i32 (counter + 1) in
      if decide (is_Some (record !! ss'))
      then next_name_loop fuel' prefix record hint ss' counter'
      else Some (ss', counter')
  end.

(** The generator returned by [next_name(prefix, counter)], applied to a
    record and a hint: the name and the counter afterwards.  The loop runs
    at most [size record + 1] times ([next_name_loop_returns] below), so
    the last case, which stands for the [return ""] behind the loop, is
    never taken. *)
Definition next_name (prefix : string) (record : gmap string R) (hint : string)
    (counter : Z) : string * Z :=
  match record !! hint with
  | None => (hint, counter)
  | Some _ =>
      match next_name_loop (S (size record)) prefix record hint "" counter with
      | Some r => r
      | None => ("", counter)
      end
  end.

(** [states::next_buffer_name] and its siblings: the generator of kind [k],
    bound to [prefix_of k] and to the global counter of [k]. *)
Definition next_name_of (k : kind) (record : gmap string R) (hint : string)
    : GL string :=
  c <- get_ct k ;;
  let (name, c') := next_name (prefix_of k) record hint c in
  set_ct k c' ;;; ret name.

End next_name.

(** ** resource_manager::proxy *)

(** What [proxy<Resrc>] needs of [Resrc]: its kind (the [if constexpr] chain
    of the constructor), its move constructor (the new object and the source
    afterwards), its destructor, and [object.m_owning = 0] where the member
    exists. *)
Class Resource (R : Type) : Type := {
  kind_of : kind;
  move_ctor : R -> R * R;
  dtor : R -> GL unit;
  disown : R -> R
}.

(** The handle wrappers among the resources. *)
Class Wrapper (R : Type) : Type := {
  is_wrapper_of : R -> Z -> bool;
  equal : R -> R -> bool;           (* operator == *)
  owning : R -> bool                (* m_owning *)
}.

(** [rename] needs a default constructor ([m_record[new_name]]) and a copy
    assignment, [copy_assign dst src] being [dst] afterwards.  Of the seven
    resource classes only [texture] has one. *)
Class Copyable (R : Type) : Type := {
  ctor_default : GL R;
  copy_assign : R -> R -> R
}.

Global Instance buffer_resource : Resource buffer.t := {|
  kind_of := Buffer;
  move_ctor := buffer.move_ctor;
  dtor := buffer.dtor;
  disown := fun b => buffer.mk (buffer.m_object b) (buffer.m_type b) false
|}.

Global Instance buffer_wrapper : Wrapper buffer.t := {|
  is_wrapper_of := buffer.is_wrapper_of;
  equal := buffer.equal;
  owning := buffer.m_owning
|}.

Global Instance vertex_array_resource : Resource vertex_array.t := {|
  kind_of := VertexArray;
  move_ctor := vertex_array.move_ctor;
  dtor := vertex_array.dtor;
  disown := fun a => vertex_array.mk (vertex_array.m_object a) false
|}.

Global Instance vertex_array_wrapper : Wrapper vertex_array.t := {|
  is_wrapper_of := vertex_array.is_wrapper_of;
  equal := vertex_array.equal;
  owning := vertex_array.m_owning
|}.

Global Instance shader_resource : Resource shader.t := {|
  kind_of := Shader;
  move_ctor := shader.move_ctor;
  dtor := shader.dtor;
  disown := fun s =>
    shader.mk (shader.m_vertex_shader_path s) (shader.m_fragment_shader_path s)
              (shader.m_program s) (shader.m_uniform_model s)
              (shader.m_uniform_view s) (shader.m_uniform_projection s) false
|}.

Global Instance shader_wrapper : Wrapper shader.t := {|
  is_wrapper_of := shader.is_wrapper_of;
  equal := shader.equal;
  owning := shader.m_owning
|}.

(** [texture] has implicit copy and move operations, no destructor and no
    [m_owning]. *)
Global Instance texture_resource : Resource texture.t := {|
  kind_of := Texture;
  move_ctor := fun t => (t, t);
  dtor := fun _ => ret tt;
  disown := fun t => t
|}.

Global Instance texture_copyable : Copyable texture.t := {|
  ctor_default := ret texture.ctor_default;
  copy_assign := fun _ src => src
|}.

(** What is thrown: [LOG.exception(msg)] logs [msg] and throws [42];
    [std::unordered_map::at] throws [std::out_of_range]. *)
Inductive exn : Set :=
| Exception (msg : string)
| out_of_range.

Inductive result (A : Type) : Type :=
| Ok (a : A)
| Throw (e : exn).
Arguments Ok {A} a.
Arguments Throw {A} e.

(** The failures the specification names. *)
Definition NotFound (name : string) : exn := Exception ("No such resource: " +:+ name).
Definition Empty : exn := Exception "No resources".

Record proxy (R : Type) : Type := Proxy {
  m_record : gmap string R;       (* std::unordered_map<std::string, Resrc>& *)
  m_recently_used : string        (* mutable std::string *)
}.
Arguments Proxy {R} m_record m_recently_used.
Arguments m_record {R} p.
Arguments m_recently_used {R} p.

Definition empty_proxy {R : Type} : proxy R := Proxy ∅ "".

Section proxy.

Context {R : Type} `{Resource R}.

(** [operator [](gl::u32 idx)] has no model: its body reads
    [*std::advance(m_record.begin(), idx)], and [std::advance] returns
    [void] and takes an lvalue, so the member cannot be instantiated. *)

(** [operator [](std::string name)] *)
Definition at_name (p : proxy R) (name : string) : result (R * proxy R) :=
  match m_record p !! name with
  | None => Throw (NotFound name)
  | Some resrc => Ok (resrc, Proxy (m_record p) name)
  end.

Definition contains (p : proxy R) (name : string) : bool :=
  bool_decide (is_Some (m_record p !! name)).

(** [m_record.insert({ name, std::move(object) })]: the pair is move
    constructed from [object]; when the key is free the node is move
    constructed from the pair; the temporary pair is then destroyed.
    Returns the map and [object] afterwards. *)
Definition insert_moved (m : gmap string R) (name : string) (object : R)
    : GL (gmap string R * R) :=
  let (tmp, object') := move_ctor object in
  match m !! name with
  | None =>
      let (node, tmp') := move_ctor tmp in
      dtor tmp' ;;; ret (<[name := node]> m, object')
  | Some _ => dtor tmp ;;; ret (m, object')
  end.

(** [m_record.erase(name)] destroys the entry it removes. *)
Definition erase (m : gmap string R) (name : string) : GL (gmap string R) :=
  match m !! name with
  | None => ret m
  | Some resrc => dtor resrc ;;; ret (delete name m)
  end.

(** [record(Resrc& object, std::string& name)]: the proxy, [object] and
    [name] afterwards.  The rvalue overload returns that [name]. *)
Definition record (p : proxy R) (object : R) (name : string)
    : GL (proxy R * R * string) :=
  name' <- next_name_of kind_of (m_record p) name ;;
  mo <- insert_moved (m_record p) name' object ;;
  ret (Proxy (fst mo) name', disown (snd mo), name').

(** [emplace(std::string& name, Args&&... args)], [ctor] being
    [Resrc(std::forward<Args>(args)...)]: the proxy and [name] afterwards.
    The local [resrc] is destroyed when the function returns. *)
Definition emplace (p : proxy R) (name : string) (ctor : GL R)
    : GL (proxy R * string) :=
  resrc <- ctor ;;
  r <- record p resrc name ;;
  dtor (snd (fst r)) ;;;
  ret (Proxy (m_record (fst (fst r))) (snd r), snd r).

(** [recent()].  The iteration order of [std::unordered_map] is
    unspecified and depends on how the map was filled, so the entry
    [*m_record.begin()] is given from outside: [first] is its key.  There
    is no result ([None]) when [first] is no key of a registry that has
    entries: no iteration of the map starts there. *)
Definition recent (p : proxy R) (first : string) : option (result (R * proxy R)) :=
  if decide (m_recently_used p = "")
  then
    if (size (m_record p) =? 0)%nat
    then Some (Throw Empty)                         (* m_record.empty() *)
    else
      match m_record p !! first with
      | Some resrc => Some (Ok (resrc, Proxy (m_record p) first))
      | None => None
      end
  else
    match m_record p !! m_recently_used p with      (* m_record.at(...) *)
    | Some resrc => Some (Ok (resrc, p))
    | None => Some (Throw out_of_range)
    end.

(** [remove(std::string const& name)] *)
Definition remove (p : proxy R) (name : string) : GL (proxy R) :=
  m <- erase (m_record p) name ;;
  ret (Proxy m (if decide (m_recently_used p = name) then "" else m_recently_used p)).

(** [retrieve(std::string const& name)]: [resrc] is move constructed from
    the entry, the moved-from entry is erased, and [resrc] is returned
    (the copy out of the function is elided). *)
Definition retrieve (p : proxy R) (name : string) : GL (result (R * proxy R)) :=
  match m_record p !! name with
  | None => ret (Throw (NotFound name))
  | Some entry =>
      let (resrc, entry') := move_ctor entry in
      m <- erase (<[name := entry']> (m_record p)) name ;;
      ret (Ok (resrc,
               Proxy m (if decide (m_recently_used p = name) then ""
                        else m_recently_used p)))
  end.

(** [rename(old_name, new_name)].  In
    [m_record[new_name] = m_record[old_name]] the right operand is
    evaluated first; [m_record[new_name]] default constructs the entry
    when the key is free. *)
Definition rename `{Copyable R} (p : proxy R) (old_name new_name : string)
    : GL (bool * proxy R) :=
  match m_record p !! old_name with
  | None => ret (false, p)
  | Some src =>
      dst <- (match m_record p !! new_name with
              | Some d => ret d
              | None => ctor_default
              end) ;;
      m <- erase (<[new_name := copy_assign dst src]> (m_record p)) old_name ;;
      ret (true,
           Proxy m (if decide (m_recently_used p = old_name) then new_name
                    else m_recently_used p))
  end.

(** Calls of [emplace], [record] and [remove], and their effect in order. *)
Inductive op : Type :=
| Emplace (hint : string) (ctor : GL R)
| Record (object : R) (hint : string)
| Remove (name : string).

Definition step (p : proxy R) (o : op) : GL (proxy R) :=
  match o with
  | Emplace hint ctor => r <- emplace p hint ctor ;; ret (fst r)
  | Record object hint => r <- record p object hint ;; ret (fst (fst r))
  | Remove name => remove p name
  end.

Fixpoint run (ops : list op) (p : proxy R) : GL (proxy R) :=
  match ops with
  | [] => ret p
  | o :: ops' => p' <- step p o ;; run ops' p'
  end.

(** The invariant of the recently-used cache: it is absent or names an
    entry. *)
Definition cache_valid (p : proxy R) : Prop :=
  m_recently_used p = "" \/ is_Some (m_record p !! m_recently_used p).

End proxy.

(** ** What a move is claimed to do *)

Section moves.

Context {W : Type}.
Variable handle : W -> Z.
Variable owns : W -> bool.
Variable destroy : W -> GL unit.
Variable clear : W -> GL W.

(** The handle and the owning flag of [src] went to [dst'], and [src']
    (the source afterwards) does not own; so the two never both own. *)
Definition transferred (src dst' src' : W) : Prop :=
  handle dst' = handle src /\ owns dst' = owns src /\ owns src' = false /\
  (owns dst' && owns src' = false).

(** Destroying or clearing [w] issues no call to the driver. *)
Definition inert (w : W) : Prop :=
  forall st, destroy w st = (tt, st) /\ snd (clear w st) = st.

Definition move_ctor_transfers (mc : W -> W * W) : Prop :=
  forall other, transferred other (fst (mc other)) (snd (mc other)) /\
                inert (snd (mc other)).

Definition move_assign_transfers (ma : W -> W -> GL (W * W)) : Prop :=
  forall self other st,
    let r := fst (ma self other st) in
    transferred other (fst r) (snd r) /\ inert (snd r).

(** The same, but only between wrappers of different handles; between
    wrappers of one handle the assignment does nothing. *)
Definition move_assign_transfers_unless_same (ma : W -> W -> GL (W * W)) : Prop :=
  forall self other st,
    let r := fst (ma self other st) in
    if handle self =? handle other
    then ma self other st = ((self, other), st)
    else transferred other (fst r) (snd r) /\ inert (snd r).

(** The source side only: [other] no longer owns and is inert, and
    [*this] holds its handle. *)
Definition move_assign_disowns_source (ma : W -> W -> GL (W * W)) : Prop :=
  forall self other st,
    let r := fst (ma self other st) in
    handle self <> handle other ->
    handle (fst r) = handle other /\ owns (snd r) = false /\ inert (snd r).

End moves.

(** ** Notions the theorems use *)

(** The keys of [record] longer than [ss].  A candidate of [next_name_loop]
    is longer than the ones before it, so each candidate that is taken
    removes a key from this set: the measure of the loop. *)
Definition longer_keys {R : Type} (record : gmap string R) (ss : string) : gset string :=
  filter (fun k => (String.length ss < String.length k)%nat) (dom record).

(** What the registry relies on in a handle wrapper: a move keeps what the
    wrapper wraps, its identity and its owning flag, and the moved-from
    source frees nothing when it is destroyed. *)
Class WrapperLaws (R : Type) `{Resource R} `{Wrapper R} : Prop := {
  move_ctor_is_wrapper_of :
    forall r h, is_wrapper_of (fst (move_ctor r)) h = is_wrapper_of r h;
  move_ctor_equal : forall r x, equal (fst (move_ctor r)) x = equal r x;
  equal_refl : forall r, equal r r = true;
  move_ctor_owning : forall r, owning (fst (move_ctor r)) = owning r;
  moved_from_dtor : forall r w, dtor (snd (move_ctor r)) w = (tt, w)
}.

(** The implicit copy assignment of [texture] copies the members: the
    destination is the source afterwards. *)
Class CopyLaws (R : Type) `{Copyable R} : Prop := {
  copy_assign_src : forall dst src : R, copy_assign dst src = src
}.

(** A world to run examples in: all counters at 0, a driver out of names. *)
Definition w0 : world := World (fun _ => 0) [] (fun _ _ => 0) [].

(** What the registry relies on when it leaves a wrapper behind: the
    caller's object of [record] ([m_owning = 0]) and the source of a move no
    longer own, and destroying the disowned object issues no call. *)
Class ReleaseLaws (R : Type) `{Resource R} `{Wrapper R} : Prop := {
  disown_dtor : forall r w, dtor (disown r) w = (tt, w);
  disown_owning : forall r, owning (disown r) = false;
  moved_from_owning : forall r, owning (snd (move_ctor r)) = false
}.

(** What the string stream of [next_name] holds after [tries] iterations
    that started with the counter at [counter]: the pieces
    [hint ++ prefix ++ counter], [hint ++ prefix ++ (counter + 1)], ...
    one behind the other. *)
Fixpoint candidate (hint prefix : string) (counter : Z) (tries : nat) : string :=
  match tries with
  | O => ""
  | S n => (hint +:+ prefix +:+ pretty counter) +:+ candidate hint prefix (counter + 1) n
  end.

Definition is_digit (a : Ascii.ascii) : bool :=
  (48 <=? Ascii.nat_of_ascii a)%nat && (Ascii.nat_of_ascii a <=? 57)%nat.

Fixpoint all_digits (s : string) : bool :=
  match s with
  | EmptyString => true
  | String a s' => is_digit a && all_digits s'
  end.

(** The longest suffix of [s] made of decimal digits. *)
Fixpoint digit_tail (s : string) : string :=
  match s with
  | EmptyString => EmptyString
  | String a s' =>
      let t := digit_tail s' in
      if is_digit a && (String.length t =? String.length s')%nat then String a s' else t
  end.

(** ** class mesh *)

Module mesh.

Record t : Type := mk {
  m_array : vertex_array.t;     (* vertex_array m_array *)
  m_vertices : buffer.t;        (* buffer m_vertices *)
  m_indices : buffer.t;         (* buffer m_indices *)
  m_index_ct : Z                (* gl::s32 m_index_ct = 0 *)
}.

Definition NON_OWNING : Z := 0.
Definition OWN_VAO : Z := 1.
Definition OWN_VBO : Z := 2.
Definition OWN_EBO : Z := 4.
Definition OWN_ALL : Z := Z.lor (Z.lor OWN_VAO OWN_VBO) OWN_EBO.

(** [mesh()] *)
Definition ctor_default : GL t :=
  a <- vertex_array.ctor 0 true ;;
  v <- buffer.ctor 0 GL_ARRAY_BUFFER true ;;
  i <- buffer.ctor 0 GL_ELEMENT_ARRAY_BUFFER true ;;
  ret (mk a v i 0).

(** [mesh(gl::u32 vao, gl::u32 vbo, gl::u32 ebo, gl::s32 index_ct,
          gl::e32 owning = OWN_ALL)].  Each member is constructed from a
    handle that is generated when the argument is 0; the owning argument of
    [m_vertices] tests [OWN_VAO]. *)
Definition ctor (vao vbo ebo index_ct owning : Z) : GL t :=
  ha <- (if vao =? 0 then generate_vertex_array else ret vao) ;;
  a <- vertex_array.ctor ha ((vao =? 0) || bool_of_int (Z.land owning OWN_VAO)) ;;
  hv <- (if vbo =? 0 then generate_buffer else ret vbo) ;;
  v <- buffer.ctor hv GL_ARRAY_BUFFER ((vbo =? 0) || bool_of_int (Z.land owning OWN_VAO)) ;;
  hi <- (if ebo =? 0 then generate_buffer else ret ebo) ;;
  i <- buffer.ctor hi GL_ELEMENT_ARRAY_BUFFER
         ((ebo =? 0) || bool_of_int (Z.land owning OWN_EBO)) ;;
  ret (mk a v i index_ct).

(** [mesh(vertex_array& array, buffer& vertices, buffer& indices,
          gl::s32 index_ct, gl::e32 owning = OWN_ALL)]: the mesh, and
    [array], [vertices] and [indices] afterwards. *)
Definition ctor_wrappers (array : vertex_array.t) (vertices indices : buffer.t)
    (index_ct owning : Z) : GL (t * vertex_array.t * buffer.t * buffer.t) :=
  m <- ctor (vertex_array.m_object array) (buffer.m_object vertices)
            (buffer.m_object indices) index_ct owning ;;
  let array' :=
    if bool_of_int (Z.land owning OWN_VAO)
    then vertex_array.mk (vertex_array.m_object array) false else array in
  let vertices' :=
    if bool_of_int (Z.land owning OWN_VBO)
    then buffer.mk (buffer.m_object vertices) (buffer.m_type vertices) false
    else vertices in
  let indices' :=
    if bool_of_int (Z.land owning OWN_EBO)
    then buffer.mk (buffer.m_object indices) (buffer.m_type indices) false
    else indices in
  ret (m, array', vertices', indices').

(** [mesh(mesh&& other)]: the new mesh and [other] afterwards. *)
Definition move_ctor (other : t) : t * t :=
  let (a, a') := vertex_array.move_ctor (m_array other) in
  let (v, v') := buffer.move_ctor (m_vertices other) in
  let (i, i') := buffer.move_ctor (m_indices other) in
  (mk a v i (m_index_ct other), mk a' v' i' (m_index_ct other)).

(** [operator =(mesh&& other)], for [other] another object than [*this]:
    [*this] and [other] afterwards. *)
Definition move_assign (self other : t) : GL (t * t) :=
  ra <- vertex_array.move_assign (m_array self) (m_array other) ;;
  rv <- buffer.move_assign (m_vertices self) (m_vertices other) ;;
  ri <- buffer.move_assign (m_indices self) (m_indices other) ;;
  ret (mk (fst ra) (fst rv) (fst ri) (m_index_ct other),
       mk (snd ra) (snd rv) (snd ri) (m_index_ct other)).

Definition clear (self : t) : GL t :=
  a <- vertex_array.clear (m_array self) ;;
  v <- buffer.clear (m_vertices self) ;;
  i <- buffer.clear (m_indices self) ;;
  ret (mk a v i (m_index_ct self)).

(** The implicit destructor destroys the members in the reverse order of
    their declaration. *)
Definition dtor (self : t) : GL unit :=
  buffer.dtor (m_indices self) ;;;
  buffer.dtor (m_vertices self) ;;;
  vertex_array.dtor (m_array self).

(** [operator ==] *)
Definition equal (lhs rhs : t) : bool :=
  vertex_array.equal (m_array lhs) (m_array rhs) &&
  buffer.equal (m_vertices lhs) (m_vertices rhs) &&
  buffer.equal (m_indices lhs) (m_indices rhs).

End mesh.

(** [mesh] has no member [m_owning]: [record] leaves the caller's mesh as
    the move left it. *)
Global Instance mesh_resource : Resource mesh.t := {|
  kind_of := Mesh;
  move_ctor := mesh.move_ctor;
  dtor := mesh.dtor;
  disown := fun m => m
|}.

(** ** GLFW and class window *)

(** Constants of [GLFW/glfw3.h] and [GL/gl.h] the program uses. *)
Definition GL_TRUE : Z := 1.
Definition GL_FALSE : Z := 0.
Definition GLFW_FOCUSED : Z := 131073.                   (* 0x00020001 *)
Definition GLFW_RESIZABLE : Z := 131075.                 (* 0x00020003 *)
Definition GLFW_DECORATED : Z := 131077.                 (* 0x00020005 *)
Definition GLFW_FLOATING : Z := 131079.                  (* 0x00020007 *)
Definition GLFW_MAXIMIZED : Z := 131080.                 (* 0x00020008 *)
Definition GLFW_CENTER_CURSOR : Z := 131081.             (* 0x00020009 *)
Definition GLFW_TRANSPARENT_FRAMEBUFFER : Z := 131082.   (* 0x0002000A *)
Definition GLFW_CONTEXT_VERSION_MAJOR : Z := 139266.     (* 0x00022002 *)
Definition GLFW_CONTEXT_VERSION_MINOR : Z := 139267.     (* 0x00022003 *)
Definition GLFW_OPENGL_FORWARD_COMPAT : Z := 139270.     (* 0x00022006 *)
Definition GLFW_OPENGL_PROFILE : Z := 139272.            (* 0x00022008 *)
Definition GLFW_OPENGL_CORE_PROFILE : Z := 204801.       (* 0x00032001 *)
Definition GLFW_CURSOR : Z := 208897.                    (* 0x00033001 *)
Definition GLFW_CURSOR_HIDDEN : Z := 212994.             (* 0x00034002 *)
Definition GLFW_CURSOR_DISABLED : Z := 212995.           (* 0x00034003 *)
Definition GLFW_DONT_CARE : Z := -1.

(** Calls into GLFW; window and monitor handles are pointers, 0 being
    [nullptr]. *)
Inductive glfw_call : Set :=
| glfwInit
| glfwTerminate
| glfwWindowHint (hint value : Z)
| glfwGetPrimaryMonitor
| glfwCreateWindow (width height : Z) (title : string) (monitor share : Z)
| glfwSetInputMode (window mode value : Z)
| glfwMakeContextCurrent (window : Z)
| glfwSetWindowUserPointer (window : Z)
| glfwSetWindowSizeCallback (window : Z)
| glfwSetKeyCallback (window : Z)
| glfwSetMouseButtonCallback (window : Z)
| glfwGetWindowPos (window : Z)
| glfwGetWindowSize (window : Z)
| glfwDestroyWindow (window : Z).

(** What GLFW answers during the construction of a window. *)
Record glfw_answers : Type := GlfwAnswers {
  init_result : Z;            (* glfwInit() *)
  primary_monitor : Z;        (* glfwGetPrimaryMonitor() *)
  created_window : Z;         (* glfwCreateWindow(...) *)
  window_pos : Z * Z;         (* glfwGetWindowPos *)
  window_size : Z * Z         (* glfwGetWindowSize *)
}.

(** [states::glfw_initialize()] in one thread, [initialized] telling
    whether an earlier call of [std::call_once] on [g_glfw_init_flag]
    returned: the calls issued, and the flag afterwards or the exception. *)
Definition glfw_initialize (initialized : bool) (init_result : Z)
    : list glfw_call * result bool :=
  if initialized then ([], Ok true)
  else if init_result =? 0
       then ([glfwInit], Throw (Exception "Failed to initialize GLFW"))
       else ([glfwInit], Ok true).



(** The loop of [glfw_hints(std::vector<gl::i32> const&)], [i] being its
    index; a read behind the end of the vector stops the model. *)
Fixpoint glfw_hints_loop (fuel : nat) (hints : list Z) (i : nat) : list glfw_call :=
  match fuel with
  | O => []
  | S fuel' =>
      if (i <? length hints)%nat
      then match hints !! i, hints !! S i with
           | Some hint, Some value =>
               glfwWindowHint hint value :: glfw_hints_loop fuel' hints (i + 2)
           | _, _ => []
           end
      else []
  end.

(** [states::glfw_hints(std::vector<gl::i32> const& hints)] *)
Definition glfw_hints (hints : list Z) : list glfw_call * result unit :=
  if negb (length hints mod 2 =? 0)%nat
  then ([], Throw (Exception "glfwhints: hints must be a list of key-value pairs"))
  else if (length hints =? 0)%nat then ([], Ok tt)
  else (glfw_hints_loop (length hints) hints 0, Ok tt).

(** [states::glfw_hints(hint, value, args...)], [pairs] being the leading
    hint and value arguments and [hints] the vector that ends the pack. *)
Fixpoint glfw_hints_pack (pairs : list (Z * Z)) (hints : list Z)
    : list glfw_call * result unit :=
  match pairs with
  | [] => glfw_hints hints
  | (hint, value) :: rest =>
      let (calls, r) := glfw_hints_pack rest hints in
      (glfwWindowHint hint value :: calls, r)
  end.

Module window_specification.

(** [enum trait] *)
Definition BORDERED : Z := 1.
Definition CENTER_CURSOR : Z := 2.
Definition DISABLE_CURSOR : Z := 4.
Definition FOCUSED : Z := 8.
Definition FULLSCREEN : Z := 16.
Definition HIDE_CURSOR : Z := 32.
Definition MAXIMIZED : Z := 64.
Definition RESIZABLE : Z := 128.
Definition TOPMOST : Z := 256.
Definition TRANSPARENT : Z := 512.
Definition VISIBLE : Z := 1024.

Record t : Type := mk {
  title : string;
  width : Z;
  height : Z;
  traits : Z;
  major_version : Z;
  minor_version : Z;
  opengl_profile : Z;
  shared_with : Z;
  hints : list Z
}.

End window_specification.

Definition k_default_window_width : Z := 800.
Definition k_default_window_height : Z := 600.

Module window.

Section members.

(** [F] stands for the floating point values and [C] for the callbacks a
    window holds; the program only stores and copies them here. *)
Context {F C : Type}.

Record t : Type := mk {
  m_window : Z;                     (* glfw::window_handle, nullptr by default *)
  m_monitor : Z;                    (* glfw::monitor_handle *)
  m_position : Z * Z;               (* aux::pos *)
  m_size : Z * Z;                   (* aux::size *)
  m_viewport_size : Z * Z;
  m_cursor_last_pos : F * F;        (* aux::fpos *)
  m_cursor_delta : F * F;
  m_last_time : F;
  m_render_callback : C;
  m_logic_callback : C;
  m_keys : option (list bool);      (* std::unique_ptr<bool[]>, 512 entries *)
  m_owning : bool;
  m_update_viewport : bool;
  m_running : bool;
  m_cursor_initialized : bool
}.

Variable zero : F.
Variable k_default_render_callback : C.
Variable k_default_logic_callback : C.

(** The members as their default initializers leave them. *)
Definition initial : t :=
  mk 0 0 (0, 0) (0, 0) (0, 0) (zero, zero) (zero, zero) zero
     k_default_render_callback k_default_logic_callback
     (Some (replicate 512 false)) true false true false.

(** The hints the constructor gives for the traits.  [==] binds tighter
    than [&], so [window_traits & BORDERED == 0] is
    [window_traits & (BORDERED == 0)]. *)
Definition trait_hints (window_traits : Z) : list glfw_call :=
  let test (trait : Z) := bool_of_int (Z.land window_traits trait) in
  let test_eq0 (trait : Z) :=
    bool_of_int (Z.land window_traits (int_of_bool (trait =? 0))) in
  (if test_eq0 window_specification.BORDERED
   then [glfwWindowHint GLFW_DECORATED GL_FALSE] else []) ++
  (if test window_specification.CENTER_CURSOR
   then [glfwWindowHint GLFW_CENTER_CURSOR GL_TRUE] else []) ++
  (if test_eq0 window_specification.FOCUSED
   then [glfwWindowHint GLFW_FOCUSED GL_FALSE] else []) ++
  (if test window_specification.MAXIMIZED
   then [glfwWindowHint GLFW_MAXIMIZED GL_TRUE] else []) ++
  (if test_eq0 window_specification.RESIZABLE
   then [glfwWindowHint GLFW_RESIZABLE GL_FALSE] else []) ++
  (if test window_specification.TOPMOST
   then [glfwWindowHint GLFW_FLOATING GL_TRUE] else []) ++
  (if test window_specification.TRANSPARENT
   then [glfwWindowHint GLFW_TRANSPARENT_FRAMEBUFFER GL_TRUE] else []).

(** [window(aux::window_specification&& spec)]: the calls issued, and the
    window or the exception that leaves the constructor. *)
Definition ctor (initialized : bool) (glfw : glfw_answers)
    (spec : window_specification.t) : list glfw_call * result t :=
  let test (trait : Z) :=
    bool_of_int (Z.land (window_specification.traits spec) trait) in
  match glfw_initialize initialized (init_result glfw) with
  | (c0, Throw e) => (c0, Throw e)
  | (c0, Ok _) =>
    match glfw_hints_pack
            [(GLFW_CONTEXT_VERSION_MAJOR, window_specification.major_version spec);
             (GLFW_CONTEXT_VERSION_MINOR, window_specification.minor_version spec);
             (GLFW_OPENGL_PROFILE, window_specification.opengl_profile spec);
             (GLFW_OPENGL_FORWARD_COMPAT, GL_TRUE)]
            (window_specification.hints spec) with
    | (c1, Throw e) => (c0 ++ c1, Throw e)
    | (c1, Ok _) =>
      let c2 := trait_hints (window_specification.traits spec) in
      let width := if window_specification.width spec <=? 0
                   then k_default_window_width else window_specification.width spec in
      let height := if window_specification.height spec <=? 0
                    then k_default_window_height else window_specification.height spec in
      let monitor := primary_monitor glfw in
      if monitor =? 0
      then (c0 ++ c1 ++ c2 ++ [glfwGetPrimaryMonitor; glfwTerminate],
            Throw (Exception "Failed to get primary monitor"))
      else
        let win := created_window glfw in
        let c3 := [glfwGetPrimaryMonitor;
                   glfwCreateWindow width height (window_specification.title spec)
                     (if test window_specification.FULLSCREEN then monitor else 0)
                     (window_specification.shared_with spec)] in
        if win =? 0
        then (c0 ++ c1 ++ c2 ++ c3 ++ [glfwTerminate],
              Throw (Exception "Could not create window"))
        else
          let c4 :=
            if test window_specification.HIDE_CURSOR
            then [glfwSetInputMode win GLFW_CURSOR GLFW_CURSOR_HIDDEN]
            else if test window_specification.DISABLE_CURSOR
                 then [glfwSetInputMode win GLFW_CURSOR GLFW_CURSOR_DISABLED]
                 else [] in
          let c5 := [glfwMakeContextCurrent win; glfwSetWindowUserPointer win;
                     glfwSetWindowSizeCallback win; glfwSetKeyCallback win;
                     glfwSetMouseButtonCallback win;
                     glfwGetWindowPos win; glfwGetWindowSize win] in
          (c0 ++ c1 ++ c2 ++ c3 ++ c4 ++ c5,
           Ok (mk win monitor (window_pos glfw) (window_size glfw) (0, 0)
                  (zero, zero) (zero, zero) zero
                  k_default_render_callback k_default_logic_callback
                  (Some (replicate 512 false)) true true true false))
    end
  end.

(** [window(window&& other)]: the new window and [other] afterwards.
    [m_position] is not in the initializer list. *)
Definition move_ctor (other : t) : t * t :=
  (mk (m_window other) (m_monitor other) (0, 0) (m_size other)
      (m_viewport_size other) (m_cursor_last_pos other) (m_cursor_delta other)
      (m_last_time other) (m_render_callback other) (m_logic_callback other)
      (m_keys other) (m_owning other) (m_update_viewport other) (m_running other)
      (m_cursor_initialized other),
   mk 0 0 (m_position other) (m_size other)
      (m_viewport_size other) (m_cursor_last_pos other) (m_cursor_delta other)
      (m_last_time other) (m_render_callback other) (m_logic_callback other)
      None false (m_update_viewport other) (m_running other)
      (m_cursor_initialized other)).

(** [operator =(window&& other)], for [other] another object than
    [*this]: [*this] and [other] afterwards.  [m_position] is not assigned. *)
Definition move_assign (self other : t) : t * t :=
  (mk (m_window other) (m_monitor other) (m_position self) (m_size other)
      (m_viewport_size other) (m_cursor_last_pos other) (m_cursor_delta other)
      (m_last_time other) (m_render_callback other) (m_logic_callback other)
      (m_keys other) (m_owning other) (m_update_viewport other) (m_running other)
      (m_cursor_initialized other),
   mk 0 0 (m_position other) (m_size other)
      (m_viewport_size other) (m_cursor_last_pos other) (m_cursor_delta other)
      (m_last_time other) (m_render_callback other) (m_logic_callback other)
      None false (m_update_viewport other) (m_running other)
      (m_cursor_initialized other)).

(** [~window()] *)
Definition dtor (self : t) : list glfw_call :=
  if m_owning self then [glfwDestroyWindow (m_window self)] else [].

End members.

Arguments t : clear implicits.

End window.

(** Whether a call is [glfwCreateWindow]. *)
Definition is_create_window (c : glfw_call) : bool :=
  match c with
  | glfwCreateWindow _ _ _ _ _ => true
  | _ => false
  end.

(** [a] holds in every member but [m_position] what [b] holds. *)
Definition window_members_but_position {F C : Type} (a b : window.t F C) : Prop :=
  window.m_window a = window.m_window b /\
  window.m_monitor a = window.m_monitor b /\
  window.m_size a = window.m_size b /\
  window.m_viewport_size a = window.m_viewport_size b /\
  window.m_cursor_last_pos a = window.m_cursor_last_pos b /\
  window.m_cursor_delta a = window.m_cursor_delta b /\
  window.m_last_time a = window.m_last_time b /\
  window.m_render_callback a = window.m_render_callback b /\
  window.m_logic_callback a = window.m_logic_callback b /\
  window.m_keys a = window.m_keys b /\
  window.m_owning a = window.m_owning b /\
  window.m_update_viewport a = window.m_update_viewport b /\
  window.m_running a = window.m_running b /\
  window.m_cursor_initialized a = window.m_cursor_initialized b.

(** [a] is what a move leaves of [b]: null handles, no key states, not
    owning, and the other members as they were. *)
Definition window_left_behind {F C : Type} (a b : window.t F C) : Prop :=
  window.m_window a = 0 /\
  window.m_monitor a = 0 /\
  window.m_keys a = None /\
  window.m_owning a = false /\
  window.m_position a = window.m_position b /\
  window.m_size a = window.m_size b /\
  window.m_viewport_size a = window.m_viewport_size b /\
  window.m_cursor_last_pos a = window.m_cursor_last_pos b /\
  window.m_cursor_delta a = window.m_cursor_delta b /\
  window.m_last_time a = window.m_last_time b /\
  window.m_render_callback a = window.m_render_callback b /\
  window.m_logic_callback a = window.m_logic_callback b /\
  window.m_update_viewport a = window.m_update_viewport b /\
  window.m_running a = window.m_running b /\
  window.m_cursor_initialized a = window.m_cursor_initialized b.

(** ** log.hpp: text colors and messages *)

Module text_color.

(** [text_color] holds one [unsigned], [type]. *)
Definition MASK : Z := 2 ^ 32 - 1.                 (* ~0u *)
Definition DEFAULT_COLOR : Z := 0.
Definition REGULAR : Z := 1.
Definition MASK_COLOR_MODE : Z := 12.              (* 0b1100 *)
Definition BRIGHT : Z := 4.
Definition DIM : Z := 8.
Definition MASK_TEXT_MODE : Z := Z.shiftl 7 4.     (* 0b111u << 4 *)
Definition ITALIC : Z := 16.
Definition UNDERLINE : Z := 32.
Definition SLOW_BLINKING : Z := 48.
Definition FAST_BLINKING : Z := 64.
Definition REVERSE : Z := 80.
Definition HIDDEN : Z := 96.
Definition STRIKED : Z := 112.
Definition BLACK : Z := Z.shiftl 1 8.
Definition RED : Z := Z.shiftl 1 9.
Definition GREEN : Z := Z.shiftl 1 10.
Definition YELLOW : Z := Z.shiftl 1 11.
Definition BLUE : Z := Z.shiftl 1 12.
Definition PURPLE : Z := Z.shiftl 1 13.
Definition CYAN : Z := Z.shiftl 1 14.
Definition WHITE : Z := Z.shiftl 1 15.
Definition MASK_REGULAR_FOREGROUND : Z := Z.shiftl 255 8.
Definition BLACK_BACKGROUND : Z := Z.shiftl 1 16.
Definition RED_BACKGROUND : Z := Z.shiftl 1 17.
Definition GREEN_BACKGROUND : Z := Z.shiftl 1 18.
Definition YELLOW_BACKGROUND : Z := Z.shiftl 1 19.
Definition BLUE_BACKGROUND : Z := Z.shiftl 1 20.
Definition PURPLE_BACKGROUND : Z := Z.shiftl 1 21.
Definition CYAN_BACKGROUND : Z := Z.shiftl 1 22.
Definition WHITE_BACKGROUND : Z := Z.shiftl 1 23.
Definition MASK_REGULAR_BACKGROUND : Z := Z.shiftl 255 16.

(** [text_color(unsigned t = REGULAR | WHITE)] *)
Definition ctor_default : Z := Z.lor REGULAR WHITE.

Definition color_mode (type : Z) : Z := Z.shiftr (Z.land type MASK_COLOR_MODE) 2.

(** [from_rgb(unsigned r, unsigned g, unsigned b)], in [unsigned]
    arithmetic. *)
Definition from_rgb (r g b : Z) : Z :=
  to_u32 (to_u32 (to_u32 (Z.shiftl r 24) + to_u32 (Z.shiftl g 16)) + to_u32 (Z.shiftl b 8)).

Definition is_ (type t : Z) : bool := Z.land type t =? t.

(** [of(std::string const& color)]: [color_map[color]], a name that is not
    in the map being given a default constructed color ([of] and [is] are
    reserved words here, hence [of_] and [is_]). *)
Definition of_ (color : string) : Z :=
  if String.eqb color "black" then BLACK
  else if String.eqb color "red" then RED
  else if String.eqb color "green" then GREEN
  else if String.eqb color "yellow" then YELLOW
  else if String.eqb color "blue" then BLUE
  else if String.eqb color "purple" then PURPLE
  else if String.eqb color "cyan" then CYAN
  else if String.eqb color "white" then WHITE
  else ctor_default.

Definition text_mode (type : Z) : Z :=
  let result := Z.shiftr (Z.land type MASK_TEXT_MODE) 4 in
  if result =? 0 then 0 else result + 2.

(** [to_regular_color()]: the map has the eight colors as keys. *)
Definition to_regular_color (type : Z) : Z :=
  let key := Z.land type MASK_REGULAR_FOREGROUND in
  if key =? BLACK then 30 else if key =? RED then 31
  else if key =? GREEN then 32 else if key =? YELLOW then 33
  else if key =? BLUE then 34 else if key =? PURPLE then 35
  else if key =? CYAN then 36 else if key =? WHITE then 37
  else 37.

Definition to_regular_color_background (type : Z) : Z :=
  let key := Z.land type MASK_REGULAR_BACKGROUND in
  if key =? BLACK_BACKGROUND then 40 else if key =? RED_BACKGROUND then 41
  else if key =? GREEN_BACKGROUND then 42 else if key =? YELLOW_BACKGROUND then 43
  else if key =? BLUE_BACKGROUND then 44 else if key =? PURPLE_BACKGROUND then 45
  else if key =? CYAN_BACKGROUND then 46 else if key =? WHITE_BACKGROUND then 47
  else 40.

Definition to_rgb (type : Z) : Z * Z * Z :=
  (Z.land (Z.shiftr type 8) MASK, Z.land (Z.shiftr type 16) MASK,
   Z.land (Z.shiftr type 24) MASK).

End text_color.

Module colors.

Definition g_default_color : Z := text_color.ctor_default.
Definition k_red : Z := Z.lor text_color.REGULAR text_color.RED.
Definition k_yellow : Z := Z.lor text_color.REGULAR text_color.YELLOW.
Definition k_blue : Z := Z.lor text_color.REGULAR text_color.BLUE.
Definition k_white : Z := Z.lor text_color.REGULAR text_color.WHITE.

End colors.

Module message.

Definition NONE : Z := 0.
Definition DEBUG : Z := 1.
Definition INFO : Z := 2.
Definition WARNING : Z := 4.
Definition ERROR : Z := 8.

Record t : Type := mk {
  content : string;
  type : Z
}.

End message.

Module colored_message.

Record t : Type := mk {
  msg : message.t;
  color : Z
}.

(** [with(text_color const& opts)] *)
Definition with_ (self : t) (opts : Z) : t := mk (msg self) (Z.lor (color self) opts).

End colored_message.

(** An output stream [os] with what the globals of [colors] hold for it:
    the text written so far, the entry of [&os] in [g_previous_color], and
    [g_update_previous_color]. *)
Record ostream : Type := Ostream {
  text : string;
  g_previous_color : option Z;
  g_update_previous_color : bool
}.

Definition write (s : string) (os : ostream) : ostream :=
  Ostream (text os +:+ s) (g_previous_color os) (g_update_previous_color os).

Definition ESC : string := String (Ascii.ascii_of_nat 27) "".
Definition NL : string := String (Ascii.ascii_of_nat 10) "".

(** [operator <<(std::ostream& os, text_color color)]; the stream writes
    numbers in decimal, as it does unless it was told otherwise. *)
Definition print_color (color : Z) (os : ostream) : ostream :=
  let os := if g_update_previous_color os
            then Ostream (text os) (Some color) (g_update_previous_color os)
            else os in
  if negb (text_color.is_ color text_color.REGULAR)
  then
    let '(r, g, b) := text_color.to_rgb color in
    write (ESC +:+ "[38m" +:+ pretty r +:+ ";" +:+ pretty g +:+ ";" +:+ pretty b
           +:+ ESC +:+ "[m") os
  else
    let code (starting : bool) (c : Z) : string * bool :=
      if c =? 0 then ("", starting)
      else ((if starting then "" else ";") +:+ pretty c, false) in
    let '(s1, st1) := code true (text_color.text_mode color) in
    let '(s2, st2) := code st1 (text_color.color_mode color) in
    let '(s3, st3) := code st2 (text_color.to_regular_color color) in
    let '(s4, _) := code st3 (text_color.to_regular_color_background color) in
    write (ESC +:+ "[" +:+ s1 +:+ s2 +:+ s3 +:+ s4 +:+ "m") os.

(** [operator <<(std::ostream&, message const&)] and
    [operator <<(std::ostream&, colored_message const&)], which call each
    other; [None] when the fuel does not suffice. *)
Fixpoint print_message (fuel : nat) (m : message.t) (os : ostream) : option ostream :=
  match fuel with
  | O => None
  | S fuel' =>
      let colored := print_colored fuel' in
      os1 ← (if bool_of_int (Z.land (message.type m) message.DEBUG)
             then
               os' ← colored (colored_message.with_
                                (colored_message.mk (message.mk "(Debug)" message.NONE)
                                                    colors.k_white)
                                text_color.BRIGHT) os;
               Some (write NL os')
             else Some os);
      if message.type m =? message.INFO
      then os2 ← colored (colored_message.mk (message.mk "[INFORMATION]" message.NONE)
                                              colors.k_white) os1;
           colored (colored_message.mk m colors.k_blue) os2
      else if message.type m =? message.WARNING
      then os2 ← colored (colored_message.mk (message.mk "[WARNING]" message.NONE)
                                              colors.k_white) os1;
           colored (colored_message.mk m colors.k_yellow) (write NL os2)
      else if message.type m =? message.ERROR
      then os2 ← colored (colored_message.mk (message.mk "[ERROR]" message.NONE)
                                              colors.k_white) os1;
           colored (colored_message.mk m colors.k_red) (write NL os2)
      else Some (write (message.content m) os1)
  end
with print_colored (fuel : nat) (cmsg : colored_message.t) (os : ostream)
    : option ostream :=
  match fuel with
  | O => None
  | S fuel' =>
      let os := match g_previous_color os with
                | Some _ => os
                | None => Ostream (text os) (Some colors.g_default_color)
                                  (g_update_previous_color os)
                end in
      let os := Ostream (text os) (g_previous_color os) false in
      let os := print_color (colored_message.color cmsg) os in
      os ← print_message fuel' (colored_message.msg cmsg) os;
      let os := print_color (default colors.g_default_color (g_previous_color os)) os in
      Some (Ostream (text os) (g_previous_color os) true)
  end.

(** What printing [color] appends to a stream. *)
Definition escape (color : Z) : string :=
  text (print_color color (Ostream "" None false)).

Definition k_color_names : list string :=
  ["black"; "red"; "green"; "yellow"; "blue"; "purple"; "cyan"; "white"].


(** * Theorems *)

(** ** Handle wrappers *)

Lemma buffer_ctor_sentinel type owning w :
  buffer.ctor 0 type owning w =
    (buffer.mk (hd 0 (gl_supply w)) (bool_of_int type) true,
     World (g_ct w) (tl (gl_supply w)) (gl_uniforms w)
           (gl_calls w ++ [glGenBuffers (hd 0 (gl_supply w))])).
Proof.
  unfold buffer.ctor, bind, ret; simpl. now rewrite orb_true_r.
Qed.

Lemma vertex_array_ctor_sentinel owning w :
  vertex_array.ctor 0 owning w =
    (vertex_array.mk (hd 0 (gl_supply w)) true,
     World (g_ct w) (tl (gl_supply w)) (gl_uniforms w)
           (gl_calls w ++ [glGenVertexArrays (hd 0 (gl_supply w))])).
Proof.
  unfold vertex_array.ctor, bind, ret; simpl. now rewrite orb_true_r.
Qed.

(** C3, at the input where the code departs from it: [shader(0, 0, 0, 0,
    false)] creates a program through [glCreateProgram] and the wrapper it
    yields does not own it, whereas [buffer(0, type, false)] and
    [vertex_array(0, false)] generate an object and own it. *)
Theorem shader_ctor_sentinel_not_owning :
  forall w,
    let s := fst (shader.ctor 0 0 0 0 false w) in
    shader.m_program s = hd 0 (gl_supply w) /\
    In (glCreateProgram (hd 0 (gl_supply w))) (gl_calls (snd (shader.ctor 0 0 0 0 false w))) /\
    shader.m_owning s = false /\
    (forall type, buffer.m_owning (fst (buffer.ctor 0 type false w)) = true) /\
    vertex_array.m_owning (fst (vertex_array.ctor 0 false w)) = true.
Proof.
  intros w. cbv zeta. split; [reflexivity|]. split; [|split; [reflexivity|split]].
  - unfold shader.ctor, bind, ret, get_uniform_location; simpl.
    rewrite !in_app_iff; simpl. tauto.
  - intros type. now rewrite buffer_ctor_sentinel.
  - now rewrite vertex_array_ctor_sentinel.
Qed.

Lemma buffer_moved_from_inert other :
  inert buffer.dtor buffer.clear (snd (buffer.move_ctor other)).
Proof. intros st. now split. Qed.

Lemma vertex_array_moved_from_inert other :
  inert vertex_array.dtor vertex_array.clear (snd (vertex_array.move_ctor other)).
Proof. intros st. now split. Qed.

Lemma shader_moved_from_inert other :
  inert shader.dtor shader.clear (snd (shader.move_ctor other)).
Proof.
  intros st. split; [reflexivity|].
  unfold shader.clear, bind, ret; simpl. now rewrite andb_false_r.
Qed.

(** C1 as stated fails for move assignment: a non-owning [buffer] of
    handle 5 assigned from the owning [buffer] of the same handle takes the
    early return, and the source still owns the handle. *)
Lemma buffer_move_assign_same_handle_keeps_source_owning :
  ~ move_assign_transfers buffer.m_object buffer.m_owning buffer.dtor buffer.clear
      buffer.move_assign.
Proof.
  intros Hclaim.
  destruct (Hclaim (buffer.mk 5 true false) (buffer.mk 5 true true)
                   (World (fun _ => 0) [] (fun _ _ => 0) [])) as [(_ & Hflag & _) _].
  discriminate Hflag.
Qed.

(** [shader::operator =(shader&&)] leaves [m_owning] of the destination as
    it was: a default constructed [shader] assigned from a non-owning one
    owns the program afterwards. *)
Lemma shader_move_assign_keeps_destination_flag :
  forall st,
    fst (shader.move_assign shader.ctor_default (shader.mk None None 9 1 2 3 false) st)
    = (shader.mk None None 9 1 2 3 true, shader.mk None None 9 1 2 3 false).
Proof. reflexivity. Qed.

(** C1, amended: every move constructor ([buffer], [vertex_array],
    [shader]) hands the handle and the owning flag to the new wrapper and
    leaves the source non-owning, so that the two never both own and that
    destroying or clearing the source issues no call to the driver.  Move
    assignment of [buffer] and [vertex_array] does the same between wrappers
    of different handles and does nothing at all between wrappers of one
    handle.  Move assignment of [shader] between different programs hands
    over the program and leaves the source non-owning and inert. *)
Theorem move_transfers_ownership :
  move_ctor_transfers buffer.m_object buffer.m_owning buffer.dtor buffer.clear
    buffer.move_ctor /\
  move_ctor_transfers vertex_array.m_object vertex_array.m_owning vertex_array.dtor
    vertex_array.clear vertex_array.move_ctor /\
  move_ctor_transfers shader.m_program shader.m_owning shader.dtor shader.clear
    shader.move_ctor /\
  move_assign_transfers_unless_same buffer.m_object buffer.m_owning buffer.dtor
    buffer.clear buffer.move_assign /\
  move_assign_transfers_unless_same vertex_array.m_object vertex_array.m_owning
    vertex_array.dtor vertex_array.clear vertex_array.move_assign /\
  move_assign_disowns_source shader.m_program shader.m_owning shader.dtor
    shader.clear shader.move_assign.
Proof.
  repeat apply conj.
  - intros other. split; [|apply buffer_moved_from_inert].
    unfold transferred; simpl. now rewrite andb_false_r.
  - intros other. split; [|apply vertex_array_moved_from_inert].
    unfold transferred; simpl. now rewrite andb_false_r.
  - intros other. split; [|apply shader_moved_from_inert].
    unfold transferred; simpl. now rewrite andb_false_r.
  - intros self other st; simpl. unfold buffer.move_assign.
    destruct (buffer.m_object self =? buffer.m_object other); [reflexivity|].
    unfold bind, when, ret, delete_buffer, issue.
    destruct (buffer.m_owning self); simpl;
      (split; [unfold transferred; simpl; now rewrite andb_false_r
              | apply (buffer_moved_from_inert other)]).
  - intros self other st; simpl. unfold vertex_array.move_assign.
    destruct (vertex_array.m_object self =? vertex_array.m_object other);
      [reflexivity|].
    unfold bind, when, ret, delete_vertex_array, issue.
    destruct (vertex_array.m_owning self); simpl;
      (split; [unfold transferred; simpl; now rewrite andb_false_r
              | apply (vertex_array_moved_from_inert other)]).
  - intros self other st; simpl. intros Hne.
    apply Z.eqb_neq in Hne. unfold shader.move_assign. rewrite Hne.
    unfold bind, when, ret, delete_program, issue.
    destruct (negb (shader.m_program self =? 0)); simpl;
      (split; [reflexivity | split; [reflexivity|]];
       apply (shader_moved_from_inert other)).
Qed.

(** C9: the type a [buffer] is constructed with is stored as a [bool].  Two
    buffers constructed with non-zero types, be they different, store the
    same [m_type], and [bind()] passes 1 to [glBindBuffer] as the target,
    which is the type given only if that was 1. *)
Theorem buffer_type_is_bool :
  forall (object1 object2 type1 type2 : Z) (owning1 owning2 : bool) (w1 w2 : world),
    type1 <> 0 -> type2 <> 0 ->
    let b1 := fst (buffer.ctor object1 type1 owning1 w1) in
    let b2 := fst (buffer.ctor object2 type2 owning2 w2) in
    let f1 := fst (buffer.ctor_fresh type1 w1) in
    buffer.m_type b1 = buffer.m_type b2 /\
    buffer.m_type f1 = buffer.m_type b2 /\
    (forall w, buffer.bind b1 w =
       (tt, World (g_ct w) (gl_supply w) (gl_uniforms w)
                  (gl_calls w ++ [glBindBuffer 1 (buffer.m_object b1)]))) /\
    (forall w, buffer.bind f1 w =
       (tt, World (g_ct w) (gl_supply w) (gl_uniforms w)
                  (gl_calls w ++ [glBindBuffer 1 (buffer.m_object f1)]))) /\
    (type1 <> 1 -> int_of_bool (buffer.m_type b1) <> type1).
Proof.
  intros object1 object2 type1 type2 owning1 owning2 w1 w2 H1 H2.
  apply Z.eqb_neq in H1 as E1. apply Z.eqb_neq in H2 as E2.
  assert (Hb1 : buffer.m_type (fst (buffer.ctor object1 type1 owning1 w1)) = true).
  { unfold buffer.ctor, bind, ret, bool_of_int. rewrite E1.
    destruct (object1 =? 0); reflexivity. }
  assert (Hb2 : buffer.m_type (fst (buffer.ctor object2 type2 owning2 w2)) = true).
  { unfold buffer.ctor, bind, ret, bool_of_int. rewrite E2.
    destruct (object2 =? 0); reflexivity. }
  assert (Hf1 : buffer.m_type (fst (buffer.ctor_fresh type1 w1)) = true).
  { unfold buffer.ctor_fresh, bind, ret, bool_of_int. now rewrite E1. }
  cbv zeta. split; [|split; [|split; [|split]]].
  - now rewrite Hb1, Hb2.
  - now rewrite Hf1, Hb2.
  - intros w. unfold buffer.bind, bind_buffer, issue. now rewrite Hb1.
  - intros w. unfold buffer.bind, bind_buffer, issue. now rewrite Hf1.
  - intros Hne. rewrite Hb1. simpl. congruence.
Qed.

Lemma buffer_type_is_bool_witness :
  GL_ARRAY_BUFFER <> 0 /\ GL_ELEMENT_ARRAY_BUFFER <> 0 /\
  buffer.m_type (fst (buffer.ctor 7 GL_ARRAY_BUFFER true
                        (World (fun _ => 0) [] (fun _ _ => 0) []))) =
  buffer.m_type (fst (buffer.ctor 8 GL_ELEMENT_ARRAY_BUFFER true
                        (World (fun _ => 0) [] (fun _ _ => 0) []))).
Proof.
  split; [discriminate|]. split; [discriminate|].
  apply (buffer_type_is_bool 7 8 GL_ARRAY_BUFFER GL_ELEMENT_ARRAY_BUFFER true true
           (World (fun _ => 0) [] (fun _ _ => 0) [])
           (World (fun _ => 0) [] (fun _ _ => 0) [])); discriminate.
Defined.

(** ** The name generator *)

Lemma string_length_app (a b : string) :
  String.length (a +:+ b) = (String.length a + String.length b)%nat.
Proof. induction a as [|c a IH]; simpl; [reflexivity | now rewrite IH]. Qed.

Lemma pretty_N_go_length (x : N) :
  forall s, (String.length s <= String.length (pretty_N_go x s))%nat.
Proof.
  induction (N.lt_wf_0 x) as [x _ IH]. intros s.
  destruct (decide (x = 0%N)) as [->|Hx].
  - now rewrite pretty_N_go_0.
  - rewrite pretty_N_go_step by lia.
    etransitivity; [|apply IH].
    + simpl. lia.
    + apply N.div_lt; lia.
Qed.

Lemma pretty_N_nonempty (x : N) : (0 < String.length (pretty x))%nat.
Proof.
  unfold pretty, pretty_N. destruct (decide (x = 0%N)) as [->|Hx]; simpl; [lia|].
  rewrite pretty_N_go_step by lia.
  eapply Nat.lt_le_trans; [|apply pretty_N_go_length]. simpl. lia.
Qed.

Lemma pretty_Z_nonempty (z : Z) : (0 < String.length (pretty z))%nat.
Proof.
  destruct z as [|p|p]; unfold pretty, pretty_Z; simpl; try lia.
  apply (pretty_N_nonempty (Npos p)).
Qed.

Section next_name_facts.

Context {R : Type}.
Implicit Types (record : gmap string R) (hint ss prefix : string).

Lemma candidate_longer hint prefix ss (counter : Z) :
  (String.length ss < String.length (ss +:+ hint +:+ prefix +:+ pretty counter))%nat.
Proof.
  rewrite !string_length_app. pose proof (pretty_Z_nonempty counter). lia.
Qed.

Lemma longer_keys_shrink record ss ss' :
  (String.length ss < String.length ss')%nat ->
  is_Some (record !! ss') ->
  (size (longer_keys record ss') < size (longer_keys record ss))%nat.
Proof.
  intros Hlen Hin. apply subset_size. split.
  - intros k. unfold longer_keys. rewrite !elem_of_filter. intros [? ?].
    split; [lia | assumption].
  - intros Hsub. assert (Hk : ss' ∈ longer_keys record ss).
    { unfold longer_keys. apply elem_of_filter. split; [lia|].
      now apply elem_of_dom. }
    apply Hsub in Hk. unfold longer_keys in Hk.
    apply elem_of_filter in Hk as [Hk _]. lia.
Qed.

Lemma longer_keys_bound record ss : (size (longer_keys record ss) <= size record)%nat.
Proof.
  rewrite <- (size_dom (D := gset string) record). apply subseteq_size.
  intros k. unfold longer_keys. rewrite elem_of_filter. tauto.
Qed.

(** The loop returns once it has more fuel than there are keys longer
    than the stream's content. *)
Lemma next_name_loop_returns fuel prefix record hint ss counter :
  (size (longer_keys record ss) < fuel)%nat ->
  is_Some (next_name_loop fuel prefix record hint ss counter).
Proof.
  revert ss counter. induction fuel as [|fuel IH]; intros ss counter Hfuel; [lia|].
  simpl. case_decide as Hin; [|eauto].
  apply IH.
  pose proof (longer_keys_shrink record ss _
                (candidate_longer hint prefix ss counter) Hin).
  lia.
Qed.

Lemma next_name_loop_fresh fuel prefix record hint ss counter name counter' :
  next_name_loop fuel prefix record hint ss counter = Some (name, counter') ->
  record !! name = None.
Proof.
  revert ss counter. induction fuel as [|fuel IH]; intros ss counter; [discriminate|].
  simpl. case_decide as Hin; [apply IH|].
  intros [= <- _]. destruct (record !! _) eqn:E; [|reflexivity].
  exfalso. apply Hin. eauto.
Qed.

(** The hint is taken as it is when no entry has it. *)
Lemma next_name_free_hint prefix record hint counter :
  record !! hint = None -> next_name prefix record hint counter = (hint, counter).
Proof. intros E. unfold next_name. now rewrite E. Qed.

(** The name returned is the key of no entry. *)
Lemma next_name_fresh prefix record hint counter :
  record !! fst (next_name prefix record hint counter) = None.
Proof.
  unfold next_name. destruct (record !! hint) eqn:E; [|exact E].
  destruct (next_name_loop_returns (S (size record)) prefix record hint "" counter)
    as [[name c'] Hloop].
  { pose proof (longer_keys_bound record ""). lia. }
  rewrite Hloop. simpl. eapply next_name_loop_fresh, Hloop.
Qed.

(** The first candidate is [hint ++ prefix ++ counter]. *)
Lemma next_name_first_candidate prefix record hint counter :
  is_Some (record !! hint) ->
  record !! (hint +:+ prefix +:+ pretty counter) = None ->
  next_name prefix record hint counter =
    (hint +:+ prefix +:+ pretty counter, to_i32 (counter + 1)).
Proof.
  intros [r Hr] Hfree. unfold next_name. rewrite Hr. cbn [next_name_loop].
  change ("" +:+ hint +:+ prefix +:+ pretty counter)
    with (hint +:+ prefix +:+ pretty counter).
  destruct (decide _) as [Hin|Hin]; [|reflexivity].
  rewrite Hfree in Hin. now destruct Hin.
Qed.

End next_name_facts.

(** C4, at an input where the code departs from it.  With the names ["a"]
    and ["agenerated-bo-0"] taken and the counter at 0, the hint ["a"]
    collides, the first candidate ["agenerated-bo-0"] collides too, and the
    second candidate is not ["agenerated-bo-1"]: the string stream still
    holds the first candidate and the second is written behind it. *)
Theorem next_name_second_candidate_accumulates :
  next_name (prefix_of Buffer)
            (<["agenerated-bo-0" := tt]> (<["a" := tt]> (∅ : gmap string unit)))
            "a" 0
  = ("agenerated-bo-0agenerated-bo-1", 2).
Proof. vm_compute. reflexivity. Qed.

(** ** The registry: the recently-used cache *)

Section proxy_facts.

Context {R : Type} `{Resource R}.
Implicit Types (p : proxy R) (m : gmap string R) (w : world).

Lemma next_name_of_name (k : kind) m hint w :
  fst (next_name_of k m hint w) = fst (next_name (prefix_of k) m hint (g_ct w k)).
Proof.
  unfold next_name_of, bind, get_ct, set_ct, ret.
  now destruct (next_name (prefix_of k) m hint (g_ct w k)).
Qed.

Lemma insert_moved_has_key m name object w :
  is_Some (fst (fst (insert_moved m name object w)) !! name).
Proof.
  unfold insert_moved. destruct (move_ctor object) as [tmp object'].
  destruct (m !! name) eqn:E.
  - unfold bind, ret. destruct (dtor tmp w). simpl. rewrite E. eauto.
  - destruct (move_ctor tmp) as [node tmp']. unfold bind, ret.
    destruct (dtor tmp' w). simpl. rewrite lookup_insert_eq. eauto.
Qed.

Lemma insert_moved_free_key m name object w :
  m !! name = None ->
  fst (fst (insert_moved m name object w)) =
    <[name := fst (move_ctor (fst (move_ctor object)))]> m.
Proof.
intros E. unfold insert_moved. destruct (move_ctor object) as [tmp object'].
cbn [fst snd]. rewrite E. destruct (move_ctor tmp) as [node tmp'].
unfold bind, ret. now destruct (dtor tmp' w).
Qed.

Lemma record_unfold p object name w :
  record p object name w =
    let nw := next_name_of kind_of (m_record p) name w in
    let mo := insert_moved (m_record p) (fst nw) object (snd nw) in
    ((Proxy (fst (fst mo)) (fst nw), disown (snd (fst mo)), fst nw), snd mo).
Proof.
  unfold record, bind, ret.
  destruct (next_name_of kind_of (m_record p) name w) as [name' w1]. simpl.
  now destruct (insert_moved (m_record p) name' object w1) as [[m o] w2].
Qed.

Lemma record_cache_valid p object name w :
  cache_valid (fst (fst (fst (record p object name w)))).
Proof.
  rewrite record_unfold. right. simpl. apply insert_moved_has_key.
Qed.

Lemma emplace_cache_valid p name ctor w :
  cache_valid (fst (fst (emplace p name ctor w))).
Proof.
  unfold emplace, bind, ret. destruct (ctor w) as [resrc w1].
  rewrite record_unfold. cbv beta iota zeta. cbn [fst snd].
  match goal with |- context [dtor ?x ?y] => destruct (dtor x y) end.
  right. simpl. apply insert_moved_has_key.
Qed.

Lemma erase_lookup m name w k :
  fst (erase m name w) !! k = if decide (name = k) then None else m !! k.
Proof.
  unfold erase. destruct (m !! name) eqn:E.
  - unfold bind, ret. destruct (dtor r w). simpl.
    case_decide as Hk; [subst; apply lookup_delete_eq | now apply lookup_delete_ne].
  - unfold ret. simpl. case_decide; [now subst|reflexivity].
Qed.

Lemma remove_cache_valid p name w :
  cache_valid p -> cache_valid (fst (remove p name w)).
Proof.
  intros Hp. unfold remove, bind, ret.
  destruct (erase (m_record p) name w) as [m w1] eqn:E.
  pose proof (erase_lookup (m_record p) name w) as Hm. rewrite E in Hm. simpl in Hm.
  unfold cache_valid. simpl. case_decide as Hc; [now left|].
  destruct Hp as [Hp|Hp]; [now left|right].
  rewrite Hm. case_decide; [congruence|assumption].
Qed.

Lemma step_cache_valid p o w : cache_valid p -> cache_valid (fst (step p o w)).
Proof.
  intros Hp. destruct o as [hint ctor|object hint|name]; simpl.
  - unfold bind, ret. pose proof (emplace_cache_valid p hint ctor w) as He.
    now destruct (emplace p hint ctor w) as [[p' n] w'].
  - unfold bind, ret. pose proof (record_cache_valid p object hint w) as Hr.
    now destruct (record p object hint w) as [[[p' o'] n] w'].
  - now apply remove_cache_valid.
Qed.

Lemma run_cache_valid ops : forall p w, cache_valid p -> cache_valid (fst (run ops p w)).
Proof.
  induction ops as [|o ops IH]; intros p w Hp; [exact Hp|].
  simpl. unfold bind. pose proof (step_cache_valid p o w Hp) as Hs.
  destruct (step p o w) as [p' w']. now apply IH.
Qed.

(** C2: after any sequence of [emplace], [record] and [remove] calls on
    an empty registry, the recently-used cache is absent (the empty
    string) or is the key of an entry. *)
Theorem cache_never_dangles (ops : list op) (w : world) :
  let p := fst (run ops empty_proxy w) in
  m_recently_used p = "" \/ is_Some (m_record p !! m_recently_used p).
Proof. apply run_cache_valid. now left. Qed.

End proxy_facts.

(** ** The registry: lookups, [retrieve] and [rename] *)

Global Instance buffer_laws : WrapperLaws buffer.t.
Proof.
split; try reflexivity.
intros r. apply Z.eqb_refl.
Qed.

Global Instance vertex_array_laws : WrapperLaws vertex_array.t.
Proof.
split; try reflexivity.
intros r. apply Z.eqb_refl.
Qed.

Global Instance shader_laws : WrapperLaws shader.t.
Proof.
split; try reflexivity.
intros r. apply Z.eqb_refl.
Qed.

Section retrieve_facts.

Context {R : Type} `{WrapperLaws R}.
Implicit Types (p : proxy R) (m : gmap string R) (w : world).

Lemma erase_moved_from m name entry w :
  erase (<[name := snd (move_ctor entry)]> m) name w = (delete name m, w).
Proof.
unfold erase. rewrite lookup_insert_eq. unfold bind, ret.
rewrite moved_from_dtor. now rewrite delete_insert_eq.
Qed.

Lemma insert_moved_fresh m name object w :
  m !! name = None ->
  insert_moved m name object w =
    ((<[name := fst (move_ctor (fst (move_ctor object)))]> m, snd (move_ctor object)), w).
Proof.
intros E. unfold insert_moved.
destruct (move_ctor object) as [tmp object']. cbn [fst snd]. rewrite E.
pose proof (moved_from_dtor tmp w) as Hd.
destruct (move_ctor tmp) as [node tmp']. cbn [fst snd] in *.
unfold bind, ret. now rewrite Hd.
Qed.

Lemma retrieve_present p name entry w :
  m_record p !! name = Some entry ->
  retrieve p name w =
    (Ok (fst (move_ctor entry),
         Proxy (delete name (m_record p))
               (if decide (m_recently_used p = name) then "" else m_recently_used p)),
     w).
Proof.
intros E. unfold retrieve. rewrite E.
pose proof (erase_moved_from (m_record p) name entry w) as He.
destruct (move_ctor entry) as [resrc entry']. simpl in He.
unfold bind, ret. now rewrite He.
Qed.

End retrieve_facts.

(** C5: [retrieve] of a name that is a key removes that entry and no other
    and returns the stored wrapper, moved out: the driver is not called
    (nothing is freed), the value returned is the entry moved, which wraps
    the handle that was stored, equals the stored entry and owns iff it did,
    the registry afterwards is the one before without the name, and the
    cache is cleared iff it held the name.  After [record(value, hint)],
    [retrieve] of the adopted name returns a value that wraps what [value]
    wrapped, equals [value] and has the owning flag [value] had, and leaves
    the entries the registry had before [record] and an absent cache.
    [retrieve] of a name that is no key throws [NotFound]. *)
Theorem retrieve_transfers_out {R : Type} `{WrapperLaws R} :
  (forall (p : proxy R) name entry w,
     m_record p !! name = Some entry ->
     let resrc := fst (move_ctor entry) in
     let p' := Proxy (delete name (m_record p))
                     (if decide (m_recently_used p = name) then ""
                      else m_recently_used p) in
     retrieve p name w = (Ok (resrc, p'), w) /\
     contains p' name = false /\
     (forall k, k <> name -> m_record p' !! k = m_record p !! k) /\
     (forall h, is_wrapper_of resrc h = is_wrapper_of entry h) /\
     equal resrc entry = true /\
     owning resrc = owning entry) /\
  (forall (p : proxy R) value hint w,
     let r := record p value hint w in
     let p1 := fst (fst (fst r)) in
     let name := snd (fst r) in
     exists resrc,
       contains p1 name = true /\
       retrieve p1 name (snd r) = (Ok (resrc, Proxy (m_record p) ""), snd r) /\
       contains (Proxy (m_record p) "") name = false /\
       (forall h, is_wrapper_of resrc h = is_wrapper_of value h) /\
       equal resrc value = true /\
       owning resrc = owning value) /\
  (forall (p : proxy R) name w,
     m_record p !! name = None -> retrieve p name w = (Throw (NotFound name), w)).
Proof.
split; [|split].
- intros p name entry w E. cbv zeta.
  split; [apply retrieve_present; exact E|].
  split; [|split; [|split; [|split]]].
  + unfold contains. simpl. rewrite lookup_delete_eq.
    apply bool_decide_eq_false. now intros [? [=]].
  + intros k Hk. simpl. now apply lookup_delete_ne.
  + apply move_ctor_is_wrapper_of.
  + rewrite move_ctor_equal. apply equal_refl.
  + apply move_ctor_owning.
- intros p value hint w. rewrite record_unfold. cbv zeta. cbn [fst snd].
  set (nw := next_name_of kind_of (m_record p) hint w).
  assert (Hfresh : m_record p !! fst nw = None).
  { unfold nw. rewrite next_name_of_name. apply next_name_fresh. }
  rewrite (insert_moved_fresh _ _ _ _ Hfresh). cbn [fst snd].
  set (stored := fst (move_ctor (fst (move_ctor value)))).
  exists (fst (move_ctor stored)).
  split; [|split; [|split; [|split; [|split]]]].
  + unfold contains. simpl. rewrite lookup_insert_eq.
    apply bool_decide_eq_true. eauto.
  + rewrite (retrieve_present _ (fst nw) stored)
      by (simpl; apply lookup_insert_eq).
    cbn [m_record m_recently_used]. rewrite decide_True by reflexivity.
    now rewrite (delete_insert_id _ _ _ Hfresh).
  + unfold contains. simpl. rewrite Hfresh.
    apply bool_decide_eq_false. now intros [? [=]].
  + intros h. unfold stored. now rewrite !move_ctor_is_wrapper_of.
  + unfold stored. rewrite !move_ctor_equal. apply equal_refl.
  + unfold stored. now rewrite !move_ctor_owning.
- intros p name w E. unfold retrieve. now rewrite E.
Qed.

(** On a registry of two buffers, with the one taken out cached. *)
Lemma retrieve_transfers_out_witness :
  let p := Proxy (<["ebo" := buffer.mk 5 true false]>
                    (<["vbo" := buffer.mk 3 true true]> ∅)) "vbo" in
  let resrc := fst (move_ctor (buffer.mk 3 true true)) in
  let p' := Proxy (delete "vbo" (m_record p))
                  (if decide (m_recently_used p = "vbo") then ""
                   else m_recently_used p) in
  m_record p !! "vbo" = Some (buffer.mk 3 true true) /\
  retrieve p "vbo" w0 = (Ok (resrc, p'), w0) /\
  contains p' "vbo" = false /\
  (forall k, k <> "vbo" -> m_record p' !! k = m_record p !! k) /\
  (forall h, is_wrapper_of resrc h = is_wrapper_of (buffer.mk 3 true true) h) /\
  equal resrc (buffer.mk 3 true true) = true /\
  owning resrc = owning (buffer.mk 3 true true).
Proof.
split; [reflexivity|].
apply (proj1 (retrieve_transfers_out (R := buffer.t))
         (Proxy (<["ebo" := buffer.mk 5 true false]>
                   (<["vbo" := buffer.mk 3 true true]> ∅)) "vbo")
         "vbo" (buffer.mk 3 true true) w0).
reflexivity.
Defined.



Global Instance texture_copy_laws : CopyLaws texture.t.
Proof. now split. Qed.



(** The scenario of the specification, on a registry of textures. *)
Example rename_scenario :
  let p := Proxy (<["vao" := texture.mk 4 true]> ∅) "vao" in
  let r := fst (rename p "vao" "primary" w0) in
  fst r = true /\
  at_name (snd r) "vao" = Throw (NotFound "vao") /\
  at_name (snd r) "primary" =
    Ok (texture.mk 4 true, Proxy (<["primary" := texture.mk 4 true]> ∅) "primary").
Proof. vm_compute. repeat split. Qed.

(** A texture renamed onto the name of another one replaces it. *)
Example rename_overwrites :
  fst (rename (Proxy (<["b" := texture.mk 2 true]> (<["a" := texture.mk 1 true]> ∅)) "")
              "a" "b" w0)
  = (true, Proxy (<["b" := texture.mk 1 true]> ∅) "").
Proof. vm_compute. reflexivity. Qed.

(** C7: the code departs from the claim for [recent()], on a state that the
    public interface reaches.  A registry of textures records ["x"], which
    caches the name; [rename("x", "x")] then returns [true] and leaves the
    registry without entries and with ["x"] still cached; on it [recent()]
    goes to [m_record.at("x")], which throws [std::out_of_range], and not to
    the test that throws [Empty], whatever the iteration order of the map
    is. *)
Theorem recent_on_emptied_registry_out_of_range :
  let r0 := record empty_proxy (texture.mk 4 true) "x" w0 in
  let r1 := rename (fst (fst (fst r0))) "x" "x" (snd r0) in
  let p := snd (fst r1) in
  snd (fst r0) = "x" /\
  fst (fst r1) = true /\
  m_record p = ∅ /\
  m_recently_used p = "x" /\
  forall first, recent p first = Some (Throw out_of_range).
Proof.
split; [vm_compute; reflexivity|]. split; [vm_compute; reflexivity|].
split; [vm_compute; reflexivity|]. split; [vm_compute; reflexivity|].
intros first. vm_compute. reflexivity.
Qed.

(** What holds of C7.  A lookup by a name that is no key throws [NotFound]
    ([operator []] and [retrieve]); [recent()] on a registry without
    entries throws [Empty] when the recently-used cache is absent, and so on
    every registry without entries that calls of [emplace], [record] and
    [remove] lead to from the empty one; and whatever a lookup returns is an
    entry of the registry, never a default constructed wrapper. *)
Lemma lookup_misses_throw {R : Type} `{Resource R} :
  (forall (p : proxy R) name,
     m_record p !! name = None -> at_name p name = Throw (NotFound name)) /\
  (forall (p : proxy R) name w,
     m_record p !! name = None -> retrieve p name w = (Throw (NotFound name), w)) /\
  (forall (p : proxy R) first,
     m_record p = ∅ -> m_recently_used p = "" -> recent p first = Some (Throw Empty)) /\
  (forall (ops : list (@op R)) w first,
     let p := fst (run ops empty_proxy w) in
     m_record p = ∅ -> recent p first = Some (Throw Empty)) /\
  (forall (p : proxy R) name resrc p',
     at_name p name = Ok (resrc, p') -> m_record p !! name = Some resrc) /\
  (forall (p : proxy R) first resrc p',
     recent p first = Some (Ok (resrc, p')) ->
     m_record p !! m_recently_used p' = Some resrc).
Proof.
assert (Hempty : forall (p : proxy R) first,
     m_record p = ∅ -> m_recently_used p = "" -> recent p first = Some (Throw Empty)).
{ intros p first E Hc. unfold recent. rewrite decide_True by assumption.
  now rewrite E, map_size_empty. }
split; [|split; [|split; [exact Hempty|split; [|split]]]].
- intros p name E. unfold at_name. now rewrite E.
- intros p name w E. unfold retrieve. now rewrite E.
- intros ops w first p E. apply Hempty; [exact E|].
  destruct (run_cache_valid ops empty_proxy w) as [Hc|[x Hx]];
    [now left | exact Hc |].
  fold p in Hx. rewrite E, lookup_empty in Hx. discriminate Hx.
- intros p name resrc p'. unfold at_name.
  destruct (m_record p !! name); [now intros [= -> _] | discriminate].
- intros p first resrc p'. unfold recent. case_decide as Hc.
  + destruct (size (m_record p) =? 0)%nat; [discriminate|].
    destruct (m_record p !! first) as [x|] eqn:E; [|discriminate].
    now intros [= <- <-].
  + destruct (m_record p !! m_recently_used p) eqn:E; [|discriminate].
    now intros [= <- <-].
Qed.




(** C10 as stated fails on the empty registry: after [record] with the
    empty hint the entry just recorded is the only one, so it is the first
    entry of the map, and [recent()] returns this empty-named entry. *)
Lemma recent_returns_empty_named_entry :
  let p1 := fst (fst (fst (record empty_proxy (buffer.mk 2 true true) "" w0))) in
  m_record p1 = <["" := buffer.mk 2 true true]> ∅ /\
  m_recently_used p1 = "" /\
  recent p1 "" = Some (Ok (buffer.mk 2 true true, p1)).
Proof. vm_compute. repeat split. Qed.

(** C10, amended: on a registry without the empty name, [record] with the
    empty hint adopts the empty name, stores the entry under it and sets the
    recently-used cache to it; the cache then reads as absent, so [recent()]
    returns the entry that comes first in the iteration of the map, whichever
    it is, and caches its name: an entry the registry had before when one of
    those comes first, the entry just recorded when that one does. *)
Theorem empty_hint_is_cache_sentinel {R : Type} `{Resource R}
    (p : proxy R) (object : R) (w : world) :
  m_record p !! "" = None ->
  let r := fst (record p object "" w) in
  let p1 := fst (fst r) in
  let stored := fst (move_ctor (fst (move_ctor object))) in
  snd r = "" /\
  m_record p1 = <["" := stored]> (m_record p) /\
  m_recently_used p1 = "" /\
  (forall first entry,
     m_record p1 !! first = Some entry ->
     recent p1 first = Some (Ok (entry, Proxy (m_record p1) first))) /\
  (forall first entry,
     m_record p !! first = Some entry ->
     recent p1 first = Some (Ok (entry, Proxy (m_record p1) first))) /\
  recent p1 "" = Some (Ok (stored, p1)).
Proof.
intros E. cbv zeta. rewrite record_unfold. cbv zeta. cbn [fst snd].
assert (Hname : fst (next_name_of kind_of (m_record p) "" w) = "").
{ rewrite next_name_of_name. now rewrite next_name_free_hint. }
rewrite !Hname. cbn [m_record m_recently_used].
rewrite (insert_moved_free_key _ _ _ _ E).
set (stored := fst (move_ctor (fst (move_ctor object)))).
set (m1 := <["" := stored]> (m_record p)).
assert (Hkey : m1 !! "" = Some stored) by apply lookup_insert_eq.
assert (Hsize : (size m1 =? 0)%nat = false).
{ apply Nat.eqb_neq. apply (map_size_ne_0_lookup_2 m1 ""). eauto. }
assert (Hrecent : forall first entry,
  m1 !! first = Some entry ->
  recent (Proxy m1 "") first = Some (Ok (entry, Proxy m1 first))).
{ intros first entry Ef. unfold recent. cbn [m_record m_recently_used].
  rewrite decide_True by reflexivity. now rewrite Hsize, Ef. }
split; [reflexivity|]. split; [reflexivity|]. split; [reflexivity|].
split; [exact Hrecent|]. split.
- intros first entry Ef. apply Hrecent. unfold m1.
  rewrite lookup_insert_ne; [exact Ef|]. intros <-. congruence.
- now apply Hrecent.
Qed.

(** With a buffer recorded under ["a"] before: when ["a"] comes first in
    the map, [recent()] after [record(b, "")] returns the buffer ["a"] and
    caches that name. *)
Lemma empty_hint_is_cache_sentinel_witness :
  let p := Proxy (<["a" := buffer.mk 1 true true]> ∅) "a" in
  let p1 := fst (fst (fst (record p (buffer.mk 2 true true) "" w0))) in
  m_record p !! "" = None /\
  m_record p1 !! "" = Some (buffer.mk 2 true true) /\
  recent p1 "a" = Some (Ok (buffer.mk 1 true true, Proxy (m_record p1) "a")) /\
  recent p1 "" = Some (Ok (buffer.mk 2 true true, p1)).
Proof.
pose proof (empty_hint_is_cache_sentinel
              (Proxy (<["a" := buffer.mk 1 true true]> ∅) "a")
              (buffer.mk 2 true true) w0 eq_refl) as Hw.
cbv zeta in Hw. destruct Hw as (_ & Hm & _ & _ & Hold & Hnew).
split; [reflexivity|]. split; [now rewrite Hm|].
split; [apply Hold; reflexivity | exact Hnew].
Defined.

(** ** What holds of the claims the code departs from *)

(** The part of C3 that holds: [buffer(0, type, owning)] and
    [vertex_array(0, owning)] generate one object, wrap the name the driver
    gave and own it, whatever [owning] is. *)
Theorem adopt_sentinel_allocates_and_owns :
  forall (type : Z) (owning : bool) (w : world),
    let b := buffer.ctor 0 type owning w in
    let a := vertex_array.ctor 0 owning w in
    buffer.m_object (fst b) = hd 0 (gl_supply w) /\
    buffer.m_owning (fst b) = true /\
    gl_calls (snd b) = gl_calls w ++ [glGenBuffers (hd 0 (gl_supply w))] /\
    vertex_array.m_object (fst a) = hd 0 (gl_supply w) /\
    vertex_array.m_owning (fst a) = true /\
    gl_calls (snd a) = gl_calls w ++ [glGenVertexArrays (hd 0 (gl_supply w))].
Proof.
intros type owning w. cbv zeta.
rewrite buffer_ctor_sentinel, vertex_array_ctor_sentinel. now repeat split.
Qed.

(** The part of C4 that holds: the generator returns the hint as it is when
    no entry has that name, and in every case a name that no entry has. *)
Theorem next_name_never_collides :
  forall (R : Type) (prefix : string) (record : gmap string R) (hint : string)
         (counter : Z),
    record !! fst (next_name prefix record hint counter) = None /\
    (record !! hint = None ->
     next_name prefix record hint counter = (hint, counter)).
Proof.
intros R prefix record hint counter. split.
- apply next_name_fresh.
- apply next_name_free_hint.
Qed.

(** ** The registry: what the other operations do *)

Global Instance buffer_release_laws : ReleaseLaws buffer.t.
Proof. now split. Qed.

Global Instance vertex_array_release_laws : ReleaseLaws vertex_array.t.
Proof. now split. Qed.

Global Instance shader_release_laws : ReleaseLaws shader.t.
Proof. now split. Qed.

Lemma next_name_of_driver {R : Type} (k : kind) (m : gmap string R) hint w :
  gl_calls (snd (next_name_of k m hint w)) = gl_calls w /\
  gl_supply (snd (next_name_of k m hint w)) = gl_supply w /\
  gl_uniforms (snd (next_name_of k m hint w)) = gl_uniforms w.
Proof.
unfold next_name_of, bind, get_ct, set_ct, ret.
now destruct (next_name (prefix_of k) m hint (g_ct w k)).
Qed.

Lemma erase_world {R : Type} `{Resource R} (m : gmap string R) name w :
  snd (erase m name w) =
    match m !! name with Some entry => snd (dtor entry w) | None => w end.
Proof.
unfold erase. destruct (m !! name) as [entry|]; [|reflexivity].
unfold bind, ret. now destruct (dtor entry w).
Qed.

Lemma remove_world {R : Type} `{Resource R} (p : proxy R) name w :
  snd (remove p name w) =
    match m_record p !! name with Some entry => snd (dtor entry w) | None => w end.
Proof.
unfold remove, bind, ret. rewrite <- erase_world.
now destruct (erase (m_record p) name w).
Qed.

(** [remove(name)] destroys the entry of that name and nothing else: the
    name is no key afterwards, the other entries are as they were, the
    cache is cleared iff it held the name, and the world is the one the
    destructor of the entry leaves; with no such entry the world is
    untouched. *)
Theorem remove_destroys_the_entry {R : Type} `{Resource R}
    (p : proxy R) (name : string) (w : world) :
  let r := remove p name w in
  contains (fst r) name = false /\
  (forall k, k <> name -> m_record (fst r) !! k = m_record p !! k) /\
  m_recently_used (fst r) =
    (if decide (m_recently_used p = name) then "" else m_recently_used p) /\
  snd r = match m_record p !! name with
          | Some entry => snd (dtor entry w)
          | None => w
          end.
Proof.
cbv zeta. unfold remove, bind, ret.
pose proof (erase_lookup (m_record p) name w) as Hm.
pose proof (erase_world (m_record p) name w) as Hw.
destruct (erase (m_record p) name w) as [m w1]. cbn [fst snd] in *.
split; [|split; [|split]].
- unfold contains. cbn [m_record]. rewrite Hm, decide_True by reflexivity.
  apply bool_decide_eq_false. now intros [? [=]].
- intros k Hk. cbn [m_record]. rewrite Hm. now rewrite decide_False by congruence.
- reflexivity.
- exact Hw.
Qed.


(** Removing a wrapper from the registry frees its handle once if the
    entry owns it and not at all if it does not. *)
Theorem remove_frees_what_the_entry_owns :
  (forall (p : proxy buffer.t) name b w,
     m_record p !! name = Some b ->
     gl_calls (snd (remove p name w)) =
       gl_calls w ++ (if buffer.m_owning b then [glDeleteBuffers (buffer.m_object b)]
                      else [])) /\
  (forall (p : proxy vertex_array.t) name a w,
     m_record p !! name = Some a ->
     gl_calls (snd (remove p name w)) =
       gl_calls w ++ (if vertex_array.m_owning a
                      then [glDeleteVertexArrays (vertex_array.m_object a)] else [])) /\
  (forall (p : proxy shader.t) name s w,
     m_record p !! name = Some s ->
     gl_calls (snd (remove p name w)) =
       gl_calls w ++ (if shader.m_owning s then [glDeleteProgram (shader.m_program s)]
                      else [])).
Proof.
split; [|split]; intros p name x w E; rewrite remove_world, E.
- simpl. unfold buffer.dtor, buffer.clear, bind, ret, delete_buffer, issue.
  destruct (buffer.m_owning x); simpl; [reflexivity | now rewrite app_nil_r].
- simpl. unfold vertex_array.dtor, vertex_array.clear, bind, ret,
    delete_vertex_array, issue.
  destruct (vertex_array.m_owning x); simpl; [reflexivity | now rewrite app_nil_r].
- simpl. unfold shader.dtor, when, ret, delete_program, issue.
  destruct (shader.m_owning x); simpl; [reflexivity | now rewrite app_nil_r].
Qed.

Section record_facts.

Context {R : Type} `{WrapperLaws R} `{!ReleaseLaws R}.
Implicit Types (p : proxy R) (m : gmap string R) (w : world).

Lemma record_result p object hint w :
  exists name w',
    m_record p !! name = None /\
    record p object hint w =
      ((Proxy (<[name := fst (move_ctor (fst (move_ctor object)))]> (m_record p)) name,
        disown (snd (move_ctor object)), name), w') /\
    gl_calls w' = gl_calls w /\ gl_supply w' = gl_supply w /\
    (m_record p !! hint = None -> name = hint).
Proof.
rewrite record_unfold. cbv zeta.
set (nw := next_name_of kind_of (m_record p) hint w).
assert (Hfresh : m_record p !! fst nw = None).
{ unfold nw. rewrite next_name_of_name. apply next_name_fresh. }
rewrite (insert_moved_fresh _ _ _ _ Hfresh). cbn [fst snd].
exists (fst nw), (snd nw). split; [exact Hfresh|]. split; [reflexivity|].
destruct (next_name_of_driver kind_of (m_record p) hint w) as (Hc & Hs & _).
split; [exact Hc|]. split; [exact Hs|].
intros Hhint. unfold nw. rewrite next_name_of_name.
now rewrite next_name_free_hint.
Qed.

End record_facts.

(** [record(object, hint)] adds one entry and touches no other: the adopted
    name was free, every entry there was is still there with its value, the
    registry has one entry more, and the new entry equals [object] and owns
    iff [object] did.  The caller's [object] no longer owns afterwards, and
    no call is issued to the driver. *)
Theorem record_adds_one_entry {R : Type} `{WrapperLaws R} `{!ReleaseLaws R}
    (p : proxy R) (object : R) (hint : string) (w : world) :
  let r := record p object hint w in
  let p' := fst (fst (fst r)) in
  let name := snd (fst r) in
  m_record p !! name = None /\
  (forall k v, m_record p !! k = Some v -> m_record p' !! k = Some v) /\
  size (m_record p') = S (size (m_record p)) /\
  (exists entry, m_record p' !! name = Some entry /\
                 equal entry object = true /\ owning entry = owning object) /\
  m_recently_used p' = name /\
  owning (snd (fst (fst r))) = false /\
  gl_calls (snd r) = gl_calls w.
Proof.
destruct (record_result p object hint w) as (name & w' & Hfree & Hr & Hc & _ & _).
cbv zeta. rewrite Hr. cbn [fst snd m_record m_recently_used].
split; [exact Hfree|]. split; [|split; [|split; [|split; [|split]]]].
- intros k v Hk. rewrite lookup_insert_ne; [exact Hk|]. congruence.
- now apply map_size_insert_None.
- eexists. split; [apply lookup_insert_eq|]. split.
  + rewrite !move_ctor_equal. apply equal_refl.
  + now rewrite !move_ctor_owning.
- reflexivity.
- apply disown_owning.
- exact Hc.
Qed.

Lemma record_adds_one_entry_witness :
  let r := record (Proxy (<["vbo" := buffer.mk 3 true true]> ∅) "vbo")
                  (buffer.mk 4 true true) "vbo" w0 in
  m_record (Proxy (<["vbo" := buffer.mk 3 true true]> ∅) "vbo") !! snd (fst r) = None /\
  gl_calls (snd r) = gl_calls w0.
Proof.
pose proof (record_adds_one_entry (Proxy (<["vbo" := buffer.mk 3 true true]> ∅) "vbo")
              (buffer.mk 4 true true) "vbo" w0) as Hw.
cbv zeta in Hw. cbv zeta. split; [apply Hw | apply Hw].
Defined.

(** [emplace(hint, args...)] registers the object it constructs and frees
    nothing: beyond the calls of the constructor no call is issued (the
    local object is destroyed after it was disowned), the adopted name was
    free, the new entry equals the constructed object and owns iff that did,
    the entries there were are untouched, and the cache holds the adopted
    name, which is the hint when the hint was free. *)
Theorem emplace_registers_what_it_constructs {R : Type} `{WrapperLaws R}
    `{!ReleaseLaws R} (p : proxy R) (hint : string) (ctor : GL R) (w : world) :
  let resrc := fst (ctor w) in
  let r := emplace p hint ctor w in
  let p' := fst (fst r) in
  let name := snd (fst r) in
  m_record p !! name = None /\
  (m_record p !! hint = None -> name = hint) /\
  (forall k v, m_record p !! k = Some v -> m_record p' !! k = Some v) /\
  (exists entry, m_record p' !! name = Some entry /\
                 equal entry resrc = true /\ owning entry = owning resrc) /\
  m_recently_used p' = name /\
  gl_calls (snd r) = gl_calls (snd (ctor w)).
Proof.
cbv zeta. unfold emplace, bind, ret. destruct (ctor w) as [resrc w1].
destruct (record_result p resrc hint w1) as (name & w' & Hfree & Hr & Hc & _ & Hh).
rewrite Hr. cbn [fst snd]. rewrite disown_dtor. cbn [fst snd m_record m_recently_used].
split; [exact Hfree|]. split; [exact Hh|]. split; [|split; [|split]].
- intros k v Hk. rewrite lookup_insert_ne; [exact Hk|]. congruence.
- eexists. split; [apply lookup_insert_eq|]. split.
  + rewrite !move_ctor_equal. apply equal_refl.
  + now rewrite !move_ctor_owning.
- reflexivity.
- exact Hc.
Qed.

Lemma emplace_registers_what_it_constructs_witness :
  let r := emplace (Proxy (<["vbo" := buffer.mk 3 true true]> ∅) "vbo") "ebo"
                   (buffer.ctor 0 GL_ELEMENT_ARRAY_BUFFER false) w0 in
  snd (fst r) = "ebo" /\
  gl_calls (snd r) =
    gl_calls (snd (buffer.ctor 0 GL_ELEMENT_ARRAY_BUFFER false w0)).
Proof.
pose proof (emplace_registers_what_it_constructs
              (Proxy (<["vbo" := buffer.mk 3 true true]> ∅) "vbo") "ebo"
              (buffer.ctor 0 GL_ELEMENT_ARRAY_BUFFER false) w0) as Hw.
cbv zeta in Hw. cbv zeta. split; [apply Hw; reflexivity | apply Hw].
Defined.

(** [recent()] after a lookup by name: when the lookup succeeded, for a
    name other than the empty one, [recent()] returns the resource the
    lookup returned and leaves the registry as it is, whatever the
    iteration order of the map is; after a successful lookup of the empty
    name the cache reads as absent, and [recent()] returns the entry that
    comes first in the map. *)
Theorem recent_after_lookup {R : Type} (p : proxy R) :
  (forall name resrc p' first,
     at_name p name = Ok (resrc, p') -> name <> "" ->
     recent p' first = Some (Ok (resrc, p'))) /\
  (forall resrc p' first entry,
     at_name p "" = Ok (resrc, p') -> m_record p !! first = Some entry ->
     recent p' first = Some (Ok (entry, Proxy (m_record p) first))).
Proof.
split.
- intros name resrc p' first. unfold at_name.
  destruct (m_record p !! name) as [x|] eqn:E; [|discriminate].
  intros [= <- <-] Hne. unfold recent. cbn [m_record m_recently_used].
  rewrite decide_False by assumption. now rewrite E.
- intros resrc p' first entry. unfold at_name.
  destruct (m_record p !! "") as [x|] eqn:E; [|discriminate].
  intros [= <- <-] Ef. unfold recent. cbn [m_record m_recently_used].
  rewrite decide_True by reflexivity.
  assert (Hsize : (size (m_record p) =? 0)%nat = false).
  { apply Nat.eqb_neq. apply (map_size_ne_0_lookup_2 _ first). eauto. }
  now rewrite Hsize, Ef.
Qed.

(** [recent()] is stable: once it returned a resource, calling it again on
    the registry it left, whose map was not changed and so iterates in the
    same order, returns the same resource and changes nothing, whether the
    first call read the cache or fell back to the first entry (also when
    that entry has the empty name). *)
Theorem recent_is_stable {R : Type} (p p' : proxy R) (first : string) (resrc : R) :
  recent p first = Some (Ok (resrc, p')) -> recent p' first = Some (Ok (resrc, p')).
Proof.
unfold recent. destruct (decide (m_recently_used p = "")) as [Hc|Hc].
- destruct (size (m_record p) =? 0)%nat eqn:Hsize; [discriminate|].
  destruct (m_record p !! first) as [x|] eqn:E; [|discriminate].
  intros [= <- <-]. cbn [m_record m_recently_used].
  destruct (decide (first = "")) as [Hn|Hn]; now rewrite ?Hsize, E.
- destruct (m_record p !! m_recently_used p) as [x|] eqn:E; [|discriminate].
  intros [= <- <-]. rewrite decide_False by assumption. now rewrite E.
Qed.

(** On a registry of two textures with nothing cached: the first call
    falls back to the first entry, here ["b"], and caches its name; the
    second call reads the cache. *)
Lemma recent_is_stable_witness :
  let m := <["b" := texture.mk 2 true]> (<["a" := texture.mk 1 true]> ∅) in
  recent (Proxy m "") "b" = Some (Ok (texture.mk 2 true, Proxy m "b")) /\
  recent (Proxy m "b") "b" = Some (Ok (texture.mk 2 true, Proxy m "b")).
Proof.
assert (E : recent (Proxy (<["b" := texture.mk 2 true]>
                             (<["a" := texture.mk 1 true]> ∅)) "") "b" =
            Some (Ok (texture.mk 2 true,
                      Proxy (<["b" := texture.mk 2 true]>
                               (<["a" := texture.mk 1 true]> ∅)) "b")))
  by (vm_compute; reflexivity).
split; [exact E|]. exact (recent_is_stable _ _ _ _ E).
Defined.

(** [retrieve] and [record] undo each other: taking an entry out and
    recording the value under the name it had puts an entry of the same
    identity and owning flag back under that name, leaves the other entries
    as they were, and issues no call to the driver. *)
Theorem record_after_retrieve_restores {R : Type} `{WrapperLaws R} `{!ReleaseLaws R}
    (p : proxy R) (name : string) (entry : R) (w : world) :
  m_record p !! name = Some entry ->
  exists resrc p1 p2 object',
    retrieve p name w = (Ok (resrc, p1), w) /\
    fst (record p1 resrc name w) = (p2, object', name) /\
    (exists entry', m_record p2 !! name = Some entry' /\
                    equal entry' entry = true /\ owning entry' = owning entry) /\
    (forall k, k <> name -> m_record p2 !! k = m_record p !! k) /\
    gl_calls (snd (record p1 resrc name w)) = gl_calls w.
Proof.
intros E. rewrite (retrieve_present p name entry w E).
eexists _, _. 
set (p1 := Proxy (delete name (m_record p))
             (if decide (m_recently_used p = name) then "" else m_recently_used p)).
set (resrc := fst (move_ctor entry)).
destruct (record_result p1 resrc name w) as (n & w' & Hfree & Hr & Hc & _ & Hh).
assert (Hn : n = name).
{ apply Hh. unfold p1. cbn [m_record]. apply lookup_delete_eq. }
subst n. rewrite Hr. cbn [fst snd].
eexists _, _. split; [reflexivity|]. split; [reflexivity|].
cbn [m_record]. split; [|split].
- eexists. split; [apply lookup_insert_eq|]. split.
  + unfold resrc. rewrite !move_ctor_equal. apply equal_refl.
  + unfold resrc. now rewrite !move_ctor_owning.
- intros k Hk. unfold p1. cbn [m_record].
  rewrite lookup_insert_ne by congruence. now rewrite lookup_delete_ne by congruence.
- exact Hc.
Qed.

Lemma record_after_retrieve_restores_witness :
  exists resrc p1 p2 object',
    retrieve (Proxy (<["vbo" := buffer.mk 3 true true]> ∅) "") "vbo" w0
      = (Ok (resrc, p1), w0) /\
    fst (record p1 resrc "vbo" w0) = (p2, object', "vbo") /\
    (exists entry', m_record p2 !! "vbo" = Some entry' /\
                    equal entry' (buffer.mk 3 true true) = true /\
                    owning entry' = owning (buffer.mk 3 true true)) /\
    (forall k, k <> "vbo" ->
       m_record p2 !! k =
       m_record (Proxy (<["vbo" := buffer.mk 3 true true]> ∅) "") !! k) /\
    gl_calls (snd (record p1 resrc "vbo" w0)) = gl_calls w0.
Proof.
apply (record_after_retrieve_restores
         (Proxy (<["vbo" := buffer.mk 3 true true]> ∅) "") "vbo"
         (buffer.mk 3 true true) w0).
reflexivity.
Defined.

(** A buffer emplaced with [buffer(0, type, owning)] and then removed under
    the name it was given is allocated once and freed once: the driver sees
    one [glGenBuffers] and one [glDeleteBuffers] of the name it handed out,
    and the registry has the entries it had before. *)
Theorem emplace_then_remove_frees_once
    (p : proxy buffer.t) (hint : string) (type : Z) (owning : bool) (w : world) :
  let h := hd 0 (gl_supply w) in
  let r := emplace p hint (buffer.ctor 0 type owning) w in
  let r' := remove (fst (fst r)) (snd (fst r)) (snd r) in
  gl_calls (snd r') = gl_calls w ++ [glGenBuffers h; glDeleteBuffers h] /\
  m_record (fst r') = m_record p.
Proof.
cbv zeta. unfold emplace, bind, ret. rewrite buffer_ctor_sentinel.
set (b := buffer.mk (hd 0 (gl_supply w)) (bool_of_int type) true).
set (w1 := World _ _ _ _).
destruct (record_result p b hint w1) as (name & w' & Hfree & Hr & Hc & _ & _).
rewrite Hr. cbn [fst snd]. rewrite disown_dtor. cbn [fst snd m_record].
split.
- rewrite remove_world. cbn [m_record]. rewrite lookup_insert_eq.
  simpl. unfold buffer.dtor, buffer.clear, bind, ret, delete_buffer, issue. simpl.
  rewrite Hc. unfold w1. simpl. now rewrite <- app_assoc.
- unfold remove, bind, ret.
  pose proof (erase_lookup (<[name := fst (move_ctor (fst (move_ctor b)))]> (m_record p))
                name w') as Hm.
  destruct (erase _ name w') as [m w2]. cbn [fst snd m_record] in *.
  apply map_eq. intros k. rewrite Hm. case_decide as Hk.
  + now subst k.
  + now rewrite lookup_insert_ne.
Qed.

(** ** The name generator: the names it makes *)

Lemma string_app_assoc (a b c : string) : (a +:+ b) +:+ c = a +:+ (b +:+ c).
Proof.
induction a as [|x a IH]; [reflexivity | exact (f_equal (String x) IH)].
Qed.

Lemma string_app_nil_r (a : string) : a +:+ "" = a.
Proof.
induction a as [|x a IH]; [reflexivity | exact (f_equal (String x) IH)].
Qed.

Lemma to_i32_succ (c : Z) : - 2 ^ 31 <= c + 1 < 2 ^ 31 -> to_i32 (c + 1) = c + 1.
Proof.
intros Hc. unfold to_i32. rewrite Z.mod_small; lia.
Qed.

Lemma candidate_snoc hint prefix counter n :
  candidate hint prefix counter (S n) =
    candidate hint prefix counter n +:+
    (hint +:+ prefix +:+ pretty (counter + Z.of_nat n)).
Proof.
revert counter. induction n as [|n IH]; intros counter.
- simpl. rewrite string_app_nil_r. now rewrite Z.add_0_r.
- change (candidate hint prefix counter (S (S n)))
    with ((hint +:+ prefix +:+ pretty counter) +:+
          candidate hint prefix (counter + 1) (S n)).
  rewrite IH. cbn [candidate].
  replace (counter + 1 + Z.of_nat n) with (counter + Z.of_nat (S n)) by lia.
  symmetry. apply string_app_assoc.
Qed.

Section candidates.

Context {R : Type}.
Implicit Types (record : gmap string R) (hint ss prefix : string).

Lemma next_name_loop_candidates fuel prefix record hint :
  forall ss counter name counter',
    - 2 ^ 31 <= counter -> counter + Z.of_nat fuel < 2 ^ 31 ->
    next_name_loop fuel prefix record hint ss counter = Some (name, counter') ->
    exists n, (1 <= n <= fuel)%nat /\
      name = ss +:+ candidate hint prefix counter n /\
      counter' = counter + Z.of_nat n /\
      forall j, (1 <= j < n)%nat ->
        is_Some (record !! (ss +:+ candidate hint prefix counter j)).
Proof.
induction fuel as [|fuel IH]; intros ss counter name counter' Hlo Hhi; [discriminate|].
cbn [next_name_loop]. rewrite to_i32_succ by lia.
destruct (decide _) as [Hin|Hfree].
- intros Hloop. apply IH in Hloop as (n & Hn & -> & -> & Hprev); [|lia|lia].
  exists (S n). split; [lia|]. split; [|split; [lia|]].
  + cbn [candidate]. now rewrite !string_app_assoc.
  + intros j Hj. destruct j as [|j]; [lia|]. destruct j as [|j].
    * simpl. now rewrite string_app_nil_r.
    * specialize (Hprev (S j) ltac:(lia)). cbn [candidate].
      cbn [candidate] in Hprev. now rewrite !string_app_assoc in *.
- intros [= <- <-]. exists 1%nat. split; [lia|]. split; [|split; [lia|]].
  + simpl. now rewrite string_app_nil_r.
  + intros j Hj. lia.
Qed.

End candidates.

Lemma next_name_loop_result {R : Type} (prefix : string)
    (record : gmap string R) (hint : string) (counter : Z) :
  is_Some (record !! hint) ->
  - 2 ^ 31 <= counter ->
  counter + Z.of_nat (size record) + 1 < 2 ^ 31 ->
  exists n, (1 <= n <= S (size record))%nat /\
    next_name prefix record hint counter =
      (candidate hint prefix counter n, counter + Z.of_nat n) /\
    forall j, (1 <= j < n)%nat -> is_Some (record !! candidate hint prefix counter j).
Proof.
intros [r Hr] Hlo Hhi. unfold next_name. rewrite Hr.
destruct (next_name_loop_returns (S (size record)) prefix record hint "" counter)
  as [[name c'] Hloop].
{ pose proof (longer_keys_bound record ""). lia. }
rewrite Hloop.
apply next_name_loop_candidates in Hloop as (n & Hn & -> & -> & Hprev); [|lia|lia].
exists n. split; [exact Hn|]. split; [reflexivity|]. exact Hprev.
Qed.

(** What the generator returns when the hint is taken, as long as the
    counter does not overflow: for some number [n] of tries, at most one
    more than there are entries, the first [n] pieces
    [hint ++ prefix ++ counter], [hint ++ prefix ++ (counter + 1)], ...
    one behind the other; the counter has advanced by [n]; and each shorter
    run of pieces is a key of the record. *)
Theorem next_name_on_collision {R : Type} (prefix : string)
    (record : gmap string R) (hint : string) (counter : Z) :
  is_Some (record !! hint) ->
  - 2 ^ 31 <= counter ->
  counter + Z.of_nat (size record) + 1 < 2 ^ 31 ->
  exists n, (1 <= n <= S (size record))%nat /\
    next_name prefix record hint counter =
      (candidate hint prefix counter n, counter + Z.of_nat n) /\
    forall j, (1 <= j < n)%nat -> is_Some (record !! candidate hint prefix counter j).
Proof. apply next_name_loop_result. Qed.

Lemma next_name_on_collision_witness :
  exists n,
    (1 <= n <= S (size (<["agenerated-bo-0" := tt]>
                          (<["a" := tt]> (∅ : gmap string unit)))))%nat /\
    next_name (prefix_of Buffer)
      (<["agenerated-bo-0" := tt]> (<["a" := tt]> (∅ : gmap string unit))) "a" 0 =
      (candidate "a" (prefix_of Buffer) 0 n, 0 + Z.of_nat n) /\
    forall j, (1 <= j < n)%nat ->
      is_Some ((<["agenerated-bo-0" := tt]> (<["a" := tt]> (∅ : gmap string unit)))
                 !! candidate "a" (prefix_of Buffer) 0 j).
Proof.
apply (next_name_on_collision (prefix_of Buffer)
         (<["agenerated-bo-0" := tt]> (<["a" := tt]> (∅ : gmap string unit))) "a" 0).
- exists tt. reflexivity.
- lia.
- vm_compute. reflexivity.
Defined.

Lemma pretty_N_char_is_digit (x : N) : is_digit (pretty_N_char x) = true.
Proof.
destruct x as [|p]; [reflexivity|].
do 4 (try destruct p as [p|p|]); reflexivity.
Qed.

Lemma pretty_N_go_all_digits (x : N) :
  forall s, all_digits s = true -> all_digits (pretty_N_go x s) = true.
Proof.
induction (N.lt_wf_0 x) as [x _ IH]. intros s Hs.
destruct (decide (x = 0%N)) as [->|Hx].
- now rewrite pretty_N_go_0.
- rewrite pretty_N_go_step by lia. apply IH.
  + apply N.div_lt; lia.
  + cbn [all_digits]. now rewrite pretty_N_char_is_digit, Hs.
Qed.

Lemma pretty_Z_all_digits (z : Z) : 0 <= z -> all_digits (pretty z) = true.
Proof.
intros Hz. destruct z as [|p|p]; [reflexivity| |lia].
change (all_digits (pretty (Npos p)) = true). unfold pretty, pretty_N.
rewrite decide_False by discriminate. now apply pretty_N_go_all_digits.
Qed.

Lemma digit_tail_length (s : string) :
  (String.length (digit_tail s) <= String.length s)%nat.
Proof.
induction s as [|a s IH]; [reflexivity|]. cbn [digit_tail].
destruct (is_digit a && _); cbn [String.length]; lia.
Qed.

Lemma digit_tail_all_digits (d : string) : all_digits d = true -> digit_tail d = d.
Proof.
induction d as [|a d IH]; [reflexivity|]. cbn [all_digits digit_tail].
intros [Ha Hd]%andb_prop. rewrite (IH Hd), Ha, Nat.eqb_refl. reflexivity.
Qed.

(** Behind a character that is no digit, the digits that follow are the
    whole digit tail, whatever stands in front. *)
Lemma digit_tail_behind (u : string) (x : Ascii.ascii) (d : string) :
  is_digit x = false -> all_digits d = true ->
  digit_tail (u +:+ String x d) = d.
Proof.
intros Hx Hd. induction u as [|a u IH].
- change (digit_tail (String x d) = d). cbn [digit_tail].
  rewrite Hx. cbn [andb]. now apply digit_tail_all_digits.
- change (digit_tail (String a (u +:+ String x d)) = d). cbn [digit_tail].
  rewrite IH.
  assert (Hlen : (String.length d =? String.length (u +:+ String x d))%nat = false).
  { apply Nat.eqb_neq. rewrite string_length_app. cbn [String.length]. lia. }
  rewrite Hlen, andb_false_r. reflexivity.
Qed.

Lemma prefix_of_ends_without_digit (k : kind) :
  exists q x, prefix_of k = q +:+ String x "" /\ is_digit x = false.
Proof.
destruct k;
  [ exists "generated-bo", (Ascii.ascii_of_nat 45)
  | exists "generated-camera", (Ascii.ascii_of_nat 45)
  | exists "generated-mesh", (Ascii.ascii_of_nat 45)
  | exists "generated-shader", (Ascii.ascii_of_nat 45)
  | exists "generated-texture", (Ascii.ascii_of_nat 45)
  | exists "generated-vao", (Ascii.ascii_of_nat 45)
  | exists "Generated Window", (Ascii.ascii_of_nat 32) ]; split; reflexivity.
Qed.

Lemma digit_tail_candidate (k : kind) hint counter n :
  0 <= counter ->
  digit_tail (candidate hint (prefix_of k) counter (S n)) = pretty (counter + Z.of_nat n).
Proof.
intros Hc. rewrite candidate_snoc.
destruct (prefix_of_ends_without_digit k) as (q & x & -> & Hx).
set (d := pretty (counter + Z.of_nat n)).
set (c := candidate hint (q +:+ String x "") counter n).
assert (E : c +:+ hint +:+ (q +:+ String x "") +:+ d =
            (c +:+ hint +:+ q) +:+ String x d).
{ rewrite !string_app_assoc. reflexivity. }
rewrite E. apply digit_tail_behind; [exact Hx|].
apply pretty_Z_all_digits. lia.
Qed.

(** Names the generator makes up are never made up again: when the hint
    is taken, the name returned ends in the last counter value tried, so a
    later call of the same kind, started at the counter the earlier one
    left or at any later value, returns another name, whatever the hints
    and the entries of the two calls are (as long as the counter does not
    overflow). *)
Theorem generated_names_never_repeat {R : Type} (k : kind)
    (record1 record2 : gmap string R) (hint1 hint2 : string) (c1 c2 : Z) :
  is_Some (record1 !! hint1) ->
  is_Some (record2 !! hint2) ->
  0 <= c1 ->
  c1 + Z.of_nat (size record1) + 1 < 2 ^ 31 ->
  snd (next_name (prefix_of k) record1 hint1 c1) <= c2 ->
  c2 + Z.of_nat (size record2) + 1 < 2 ^ 31 ->
  fst (next_name (prefix_of k) record1 hint1 c1) <>
  fst (next_name (prefix_of k) record2 hint2 c2).
Proof.
intros H1 H2 Hc1 Hb1 Hc2 Hb2.
destruct (next_name_loop_result (prefix_of k) record1 hint1 c1 H1)
  as (n1 & Hn1 & E1 & _); [lia|lia|].
rewrite E1 in Hc2 |- *. cbn [fst snd] in *.
destruct (next_name_loop_result (prefix_of k) record2 hint2 c2 H2)
  as (n2 & Hn2 & E2 & _); [lia|lia|].
rewrite E2. cbn [fst]. intros Heq.
apply (f_equal digit_tail) in Heq.
destruct n1 as [|n1]; [lia|]. destruct n2 as [|n2]; [lia|].
rewrite !digit_tail_candidate in Heq by lia.
apply (inj pretty) in Heq. lia.
Qed.

Lemma generated_names_never_repeat_witness :
  fst (next_name (prefix_of Buffer) (<["a" := tt]> (∅ : gmap string unit)) "a" 0) <>
  fst (next_name (prefix_of Buffer) (<["a" := tt]> (∅ : gmap string unit)) "a" 1).
Proof.
apply (generated_names_never_repeat Buffer).
- exists tt. reflexivity.
- exists tt. reflexivity.
- lia.
- vm_compute. reflexivity.
- vm_compute. discriminate.
- vm_compute. reflexivity.
Defined.

(** ** Handle wrappers: release *)

(** Releasing a [buffer] or a [vertex_array] is idempotent: [clear()]
    deletes the object once if the wrapper owns it and not at all if it
    does not, and leaves a wrapper of the same handle on which a second
    [clear()] and the destructor issue no call. *)
Theorem clear_releases_once :
  (forall (b : buffer.t) (w : world),
     let r := buffer.clear b w in
     gl_calls (snd r) =
       gl_calls w ++ (if buffer.m_owning b then [glDeleteBuffers (buffer.m_object b)]
                      else []) /\
     buffer.m_object (fst r) = buffer.m_object b /\
     buffer.clear (fst r) (snd r) = r /\
     buffer.dtor (fst r) (snd r) = (tt, snd r)) /\
  (forall (a : vertex_array.t) (w : world),
     let r := vertex_array.clear a w in
     gl_calls (snd r) =
       gl_calls w ++ (if vertex_array.m_owning a
                      then [glDeleteVertexArrays (vertex_array.m_object a)] else []) /\
     vertex_array.m_object (fst r) = vertex_array.m_object a /\
     vertex_array.clear (fst r) (snd r) = r /\
     vertex_array.dtor (fst r) (snd r) = (tt, snd r)).
Proof.
split.
- intros [h t o] w. cbv zeta. unfold buffer.clear, buffer.dtor, buffer.clear.
  destruct o; simpl; unfold bind, ret; simpl;
    repeat split; now rewrite ?app_nil_r.
- intros [h o] w. cbv zeta. unfold vertex_array.clear, vertex_array.dtor,
    vertex_array.clear.
  destruct o; simpl; unfold bind, ret; simpl;
    repeat split; now rewrite ?app_nil_r.
Qed.

(** [shader::clear()] deletes the program once if the shader owns a
    program other than 0, and resets the program and the three uniform
    locations to 0, keeping the paths; the shader no longer owns afterwards
    unless it owned program 0.  A second [clear()] issues no call and
    changes nothing.  The destructor after [clear()] issues no call either,
    except for a shader that owned program 0 (a default constructed one):
    [clear()] leaves it owning, and the destructor calls
    [glDeleteProgram(0)]. *)
Theorem shader_clear_releases_once (s : shader.t) (w : world) :
  let r := shader.clear s w in
  gl_calls (snd r) =
    gl_calls w ++ (if negb (shader.m_program s =? 0) && shader.m_owning s
                   then [glDeleteProgram (shader.m_program s)] else []) /\
  fst r = shader.mk (shader.m_vertex_shader_path s) (shader.m_fragment_shader_path s)
                    0 0 0 0 ((shader.m_program s =? 0) && shader.m_owning s) /\
  shader.m_program (fst r) = 0 /\
  shader.m_uniform_model (fst r) = 0 /\
  shader.m_uniform_view (fst r) = 0 /\
  shader.m_uniform_projection (fst r) = 0 /\
  shader.is_wrapper_of (fst r) 0 = true /\
  shader.clear (fst r) (snd r) = r /\
  gl_calls (snd (shader.dtor (fst r) (snd r))) =
    gl_calls (snd r) ++ (if (shader.m_program s =? 0) && shader.m_owning s
                         then [glDeleteProgram 0] else []).
Proof.
destruct s as [vp fp p um uv up o]. cbv zeta.
unfold shader.clear, shader.dtor, shader.is_wrapper_of, bind, ret, when,
  delete_program, issue. simpl.
destruct (p =? 0), o; simpl; repeat split; now rewrite ?app_nil_r.
Qed.

(** [buffer(type)] generates two buffer objects and wraps the second one:
    the initializer of [m_object] and the body of the constructor both call
    [gl::generate_buffer()].  Destroying the wrapper deletes the second
    object only, so the first stays allocated. *)
Theorem buffer_ctor_fresh_generates_twice (type : Z) (w : world) :
  let first := hd 0 (gl_supply w) in
  let second := hd 0 (tl (gl_supply w)) in
  let r := buffer.ctor_fresh type w in
  buffer.m_object (fst r) = second /\
  buffer.m_owning (fst r) = true /\
  gl_calls (snd r) = gl_calls w ++ [glGenBuffers first; glGenBuffers second] /\
  gl_calls (snd (buffer.dtor (fst r) (snd r))) =
    gl_calls w ++ [glGenBuffers first; glGenBuffers second; glDeleteBuffers second].
Proof.
cbv zeta. unfold buffer.ctor_fresh, buffer.dtor, buffer.clear, generate_buffer,
  delete_buffer, fresh, issue, bind, ret. simpl.
repeat split; now rewrite <- !app_assoc.
Qed.

(** ** class mesh *)

Lemma vertex_array_ctor_nonzero object owning w :
  object <> 0 -> vertex_array.ctor object owning w = (vertex_array.mk object owning, w).
Proof.
intros Hne. apply Z.eqb_neq in Hne. unfold vertex_array.ctor, bind, ret.
rewrite Hne. now rewrite orb_false_r.
Qed.

Lemma buffer_ctor_nonzero object type owning w :
  object <> 0 ->
  buffer.ctor object type owning w = (buffer.mk object (bool_of_int type) owning, w).
Proof.
intros Hne. apply Z.eqb_neq in Hne. unfold buffer.ctor, bind, ret.
rewrite Hne. now rewrite orb_false_r.
Qed.

Lemma mesh_ctor_nonzero vao vbo ebo index_ct owning w :
  vao <> 0 -> vbo <> 0 -> ebo <> 0 ->
  mesh.ctor vao vbo ebo index_ct owning w =
    (mesh.mk (vertex_array.mk vao (bool_of_int (Z.land owning mesh.OWN_VAO)))
             (buffer.mk vbo true (bool_of_int (Z.land owning mesh.OWN_VAO)))
             (buffer.mk ebo true (bool_of_int (Z.land owning mesh.OWN_EBO)))
             index_ct, w).
Proof.
intros Ha Hv Hi. unfold mesh.ctor, bind.
apply Z.eqb_neq in Ha as Ea. apply Z.eqb_neq in Hv as Ev. apply Z.eqb_neq in Hi as Ei.
rewrite Ea, Ev, Ei. unfold ret at 1.
rewrite vertex_array_ctor_nonzero by assumption. unfold ret at 1.
rewrite buffer_ctor_nonzero by assumption. unfold ret at 1.
rewrite buffer_ctor_nonzero by assumption. reflexivity.
Qed.

Lemma land_lxor_disjoint (a b c : Z) :
  Z.land b c = 0 -> Z.land (Z.lxor a b) c = Z.land a c.
Proof.
intros Hbc. apply Z.bits_inj'. intros n Hn.
rewrite !Z.land_spec, Z.lxor_spec.
assert (Hb : Z.testbit b n && Z.testbit c n = false).
{ rewrite <- Z.land_spec, Hbc. apply Z.bits_0. }
destruct (Z.testbit a n), (Z.testbit b n), (Z.testbit c n);
  simpl in *; congruence.
Qed.

(** The [OWN_VBO] bit of the owning argument has no effect on
    [mesh(vao, vbo, ebo, index_ct, owning)]: the vertex buffer is given the
    [OWN_VAO] bit.  For handles other than 0, the vertex array and the
    vertex buffer own iff [OWN_VAO] is set, and the index buffer iff
    [OWN_EBO] is set; no call is issued. *)
Theorem mesh_ctor_ignores_own_vbo (vao vbo ebo index_ct owning : Z) (w : world) :
  mesh.ctor vao vbo ebo index_ct (Z.lxor owning mesh.OWN_VBO) w =
    mesh.ctor vao vbo ebo index_ct owning w /\
  (vao <> 0 -> vbo <> 0 -> ebo <> 0 ->
   let r := mesh.ctor vao vbo ebo index_ct owning w in
   snd r = w /\
   vertex_array.m_owning (mesh.m_array (fst r)) =
     bool_of_int (Z.land owning mesh.OWN_VAO) /\
   buffer.m_owning (mesh.m_vertices (fst r)) =
     bool_of_int (Z.land owning mesh.OWN_VAO) /\
   buffer.m_owning (mesh.m_indices (fst r)) =
     bool_of_int (Z.land owning mesh.OWN_EBO)).
Proof.
split.
- unfold mesh.ctor.
  assert (E1 : Z.land (Z.lxor owning mesh.OWN_VBO) mesh.OWN_VAO =
               Z.land owning mesh.OWN_VAO) by now apply land_lxor_disjoint.
  assert (E4 : Z.land (Z.lxor owning mesh.OWN_VBO) mesh.OWN_EBO =
               Z.land owning mesh.OWN_EBO) by now apply land_lxor_disjoint.
  now rewrite E1, E4.
- intros Ha Hv Hi. cbv zeta. rewrite mesh_ctor_nonzero by assumption.
  now repeat split.
Qed.

(** What [mesh(array, vertices, indices, index_ct, owning)] does to the
    ownership of three wrappers of handles other than 0.  No call is
    issued.  The members wrap the handles of the arguments; [m_array] and
    [m_vertices] own iff [OWN_VAO] is set and [m_indices] iff [OWN_EBO] is,
    whether the arguments owned or not.  [array] is disowned iff [OWN_VAO]
    is set, [vertices] iff [OWN_VBO] is, [indices] iff [OWN_EBO] is.  So
    with [OWN_VAO] set and [OWN_VBO] clear an owning [vertices] and the mesh
    both own the vertex buffer, and with [OWN_VAO] clear and [OWN_VBO] set
    neither does. *)
Theorem mesh_ctor_wrappers_ownership
    (array : vertex_array.t) (vertices indices : buffer.t)
    (index_ct owning : Z) (w : world) :
  vertex_array.m_object array <> 0 ->
  buffer.m_object vertices <> 0 ->
  buffer.m_object indices <> 0 ->
  let own_vao := bool_of_int (Z.land owning mesh.OWN_VAO) in
  let own_vbo := bool_of_int (Z.land owning mesh.OWN_VBO) in
  let own_ebo := bool_of_int (Z.land owning mesh.OWN_EBO) in
  let r := mesh.ctor_wrappers array vertices indices index_ct owning w in
  let m := fst (fst (fst (fst r))) in
  let array' := snd (fst (fst (fst r))) in
  let vertices' := snd (fst (fst r)) in
  let indices' := snd (fst r) in
  snd r = w /\
  vertex_array.m_object (mesh.m_array m) = vertex_array.m_object array /\
  buffer.m_object (mesh.m_vertices m) = buffer.m_object vertices /\
  buffer.m_object (mesh.m_indices m) = buffer.m_object indices /\
  vertex_array.m_owning (mesh.m_array m) = own_vao /\
  vertex_array.m_owning array' = vertex_array.m_owning array && negb own_vao /\
  buffer.m_owning (mesh.m_vertices m) = own_vao /\
  buffer.m_owning vertices' = buffer.m_owning vertices && negb own_vbo /\
  buffer.m_owning (mesh.m_indices m) = own_ebo /\
  buffer.m_owning indices' = buffer.m_owning indices && negb own_ebo.
Proof.
intros Ha Hv Hi. cbv zeta. unfold mesh.ctor_wrappers, bind.
rewrite mesh_ctor_nonzero by assumption. unfold ret. cbn [fst snd].
cbn [mesh.m_array mesh.m_vertices mesh.m_indices
     vertex_array.m_object vertex_array.m_owning buffer.m_object buffer.m_owning].
destruct (bool_of_int (Z.land owning mesh.OWN_VAO)),
         (bool_of_int (Z.land owning mesh.OWN_VBO)),
         (bool_of_int (Z.land owning mesh.OWN_EBO));
  cbn [vertex_array.m_owning buffer.m_owning negb];
  rewrite ?andb_true_r, ?andb_false_r; now repeat split.
Qed.

Lemma mesh_ctor_wrappers_ownership_witness :
  let r := mesh.ctor_wrappers (vertex_array.mk 1 true) (buffer.mk 2 true true)
             (buffer.mk 3 true true) 6 mesh.OWN_VAO w0 in
  buffer.m_owning (mesh.m_vertices (fst (fst (fst (fst r))))) =
    bool_of_int (Z.land mesh.OWN_VAO mesh.OWN_VAO) /\
  buffer.m_owning (snd (fst (fst r))) =
    buffer.m_owning (buffer.mk 2 true true) &&
    negb (bool_of_int (Z.land mesh.OWN_VAO mesh.OWN_VBO)).
Proof.
pose proof (mesh_ctor_wrappers_ownership (vertex_array.mk 1 true) (buffer.mk 2 true true)
              (buffer.mk 3 true true) 6 mesh.OWN_VAO w0) as Hw.
cbv zeta in Hw. cbv zeta.
split; apply Hw; discriminate.
Defined.

(** Releasing a mesh: [clear()] deletes, in the order vertex array, vertex
    buffer, index buffer, the objects the members own, and afterwards a
    second [clear()] and the destructor issue no call.  The destructor
    alone deletes the owned objects in the reverse order. *)
Theorem mesh_release (m : mesh.t) (w : world) :
  let da := if vertex_array.m_owning (mesh.m_array m)
            then [glDeleteVertexArrays (vertex_array.m_object (mesh.m_array m))]
            else [] in
  let dv := if buffer.m_owning (mesh.m_vertices m)
            then [glDeleteBuffers (buffer.m_object (mesh.m_vertices m))] else [] in
  let di := if buffer.m_owning (mesh.m_indices m)
            then [glDeleteBuffers (buffer.m_object (mesh.m_indices m))] else [] in
  let r := mesh.clear m w in
  gl_calls (snd r) = gl_calls w ++ da ++ dv ++ di /\
  mesh.clear (fst r) (snd r) = r /\
  mesh.dtor (fst r) (snd r) = (tt, snd r) /\
  gl_calls (snd (mesh.dtor m w)) = gl_calls w ++ di ++ dv ++ da.
Proof.
destruct m as [[ha oa] [hv tv ov] [hi ti oi] ct]. cbv zeta.
unfold mesh.clear, mesh.dtor, vertex_array.clear, vertex_array.dtor,
  vertex_array.clear, buffer.clear, buffer.dtor, buffer.clear, bind, ret,
  delete_buffer, delete_vertex_array, issue.
destruct oa, ov, oi; simpl; repeat split; now rewrite <- ?app_assoc, ?app_nil_r.
Qed.

(** Moving a mesh moves its three members: the new mesh wraps the same
    handles with the same owning flags and equals the source, and the
    source owns nothing afterwards, so that destroying or clearing it issues
    no call. *)
Theorem mesh_move_ctor_transfers (other : mesh.t) :
  let new := fst (mesh.move_ctor other) in
  let other' := snd (mesh.move_ctor other) in
  new = other /\
  mesh.equal new other' = true /\
  vertex_array.m_owning (mesh.m_array other') = false /\
  buffer.m_owning (mesh.m_vertices other') = false /\
  buffer.m_owning (mesh.m_indices other') = false /\
  forall w, mesh.dtor other' w = (tt, w) /\ snd (mesh.clear other' w) = w.
Proof.
destruct other as [[ha oa] [hv tv ov] [hi ti oi] ct]. cbv zeta. simpl.
unfold mesh.equal, vertex_array.equal, buffer.equal. simpl.
rewrite !Z.eqb_refl. now repeat split.
Qed.

(** ** GLFW hints and class window *)

Lemma glfw_hints_loop_spec (hints : list Z) (m : nat) :
  length hints = (2 * m)%nat ->
  forall fuel a, (a <= m)%nat -> (m - a <= fuel)%nat ->
    length (glfw_hints_loop fuel hints (2 * a)) = (m - a)%nat /\
    forall j hint value,
      hints !! (2 * (a + j))%nat = Some hint ->
      hints !! S (2 * (a + j)) = Some value ->
      glfw_hints_loop fuel hints (2 * a) !! j = Some (glfwWindowHint hint value).
Proof.
intros Hlen. induction fuel as [|fuel IH]; intros a Ha Hfuel.
- split; [simpl; lia|]. intros j hint value Hh Hv.
  apply lookup_lt_Some in Hv. lia.
- cbn [glfw_hints_loop].
  destruct (Nat.ltb_spec (2 * a) (length hints)) as [Hlt|Hge].
  + destruct (lookup_lt_is_Some_2 hints (2 * a)) as [h Hh]; [lia|].
    destruct (lookup_lt_is_Some_2 hints (S (2 * a))) as [v Hv]; [lia|].
    rewrite Hh, Hv.
    replace (2 * a + 2)%nat with (2 * S a)%nat by lia.
    destruct (IH (S a)) as [IHlen IHget]; [lia|lia|].
    split; [cbn [length]; lia|].
    intros j hint value Hj Hj'. destruct j as [|j].
    * rewrite Nat.add_0_r in Hj, Hj'. simpl. congruence.
    * simpl. apply IHget.
      -- replace (2 * (S a + j))%nat with (2 * (a + S j))%nat by lia. exact Hj.
      -- replace (2 * (S a + j))%nat with (2 * (a + S j))%nat by lia. exact Hj'.
  + split; [simpl; lia|]. intros j hint value Hh Hv.
    apply lookup_lt_Some in Hv. lia.
Qed.

(** [glfw_hints] on a vector: with an odd number of elements it throws
    before it gives any hint; with [2 * m] elements it gives exactly [m]
    hints, the [j]-th being element [2 * j] with the value in element
    [2 * j + 1]. *)
Theorem glfw_hints_pairs (hints : list Z) :
  (forall m, length hints = S (2 * m) ->
     exists e, glfw_hints hints = ([], Throw e)) /\
  (forall m, length hints = (2 * m)%nat ->
     snd (glfw_hints hints) = Ok tt /\
     length (fst (glfw_hints hints)) = m /\
     forall j hint value,
       hints !! (2 * j)%nat = Some hint -> hints !! S (2 * j) = Some value ->
       fst (glfw_hints hints) !! j = Some (glfwWindowHint hint value)).
Proof.
split.
- intros m Hlen. unfold glfw_hints. rewrite Hlen.
  replace (S (2 * m) mod 2)%nat with 1%nat; [simpl; eauto|].
  replace (S (2 * m))%nat with (1 + m * 2)%nat by lia.
  now rewrite Nat.Div0.mod_add.
- intros m Hlen. unfold glfw_hints. rewrite Hlen.
  replace ((2 * m) mod 2)%nat with 0%nat
    by (rewrite Nat.mul_comm; now rewrite Nat.Div0.mod_mul).
  cbn [Nat.eqb negb].
  destruct m as [|m].
  + simpl. split; [reflexivity|]. split; [reflexivity|].
    intros j hint value Hh _. apply lookup_lt_Some in Hh. lia.
  + cbn [Nat.eqb Nat.mul Nat.add fst snd].
    destruct (glfw_hints_loop_spec hints (S m) Hlen (S (m + S (m + 0))) 0)
      as [Hl Hg]; [lia|lia|].
    split; [reflexivity|]. split; [simpl in Hl |- *; lia|].
    intros j hint value Hh Hv. apply (Hg j hint value); assumption.
Qed.

Lemma land_0_r_false (x : Z) : bool_of_int (Z.land x 0) = false.
Proof. now rewrite Z.land_0_r. Qed.

(** The window constructor never asks for an undecorated, unfocused or
    fixed-size window: the tests [window_traits & BORDERED == 0],
    [... & FOCUSED == 0] and [... & RESIZABLE == 0] are false for every
    [window_traits], so the hints given for the traits are those for
    [CENTER_CURSOR], [MAXIMIZED], [TOPMOST] and [TRANSPARENT], each iff its
    bit is set, and none for [GLFW_DECORATED], [GLFW_FOCUSED] or
    [GLFW_RESIZABLE]. *)
Theorem trait_hints_never_decorated (window_traits : Z) :
  let test (trait : Z) := bool_of_int (Z.land window_traits trait) in
  window.trait_hints window_traits =
    (if test window_specification.CENTER_CURSOR
     then [glfwWindowHint GLFW_CENTER_CURSOR GL_TRUE] else []) ++
    (if test window_specification.MAXIMIZED
     then [glfwWindowHint GLFW_MAXIMIZED GL_TRUE] else []) ++
    (if test window_specification.TOPMOST
     then [glfwWindowHint GLFW_FLOATING GL_TRUE] else []) ++
    (if test window_specification.TRANSPARENT
     then [glfwWindowHint GLFW_TRANSPARENT_FRAMEBUFFER GL_TRUE] else []) /\
  forall value,
    ~ In (glfwWindowHint GLFW_DECORATED value) (window.trait_hints window_traits) /\
    ~ In (glfwWindowHint GLFW_FOCUSED value) (window.trait_hints window_traits) /\
    ~ In (glfwWindowHint GLFW_RESIZABLE value) (window.trait_hints window_traits).
Proof.
cbv zeta.
assert (E : window.trait_hints window_traits =
    (if bool_of_int (Z.land window_traits window_specification.CENTER_CURSOR)
     then [glfwWindowHint GLFW_CENTER_CURSOR GL_TRUE] else []) ++
    (if bool_of_int (Z.land window_traits window_specification.MAXIMIZED)
     then [glfwWindowHint GLFW_MAXIMIZED GL_TRUE] else []) ++
    (if bool_of_int (Z.land window_traits window_specification.TOPMOST)
     then [glfwWindowHint GLFW_FLOATING GL_TRUE] else []) ++
    (if bool_of_int (Z.land window_traits window_specification.TRANSPARENT)
     then [glfwWindowHint GLFW_TRANSPARENT_FRAMEBUFFER GL_TRUE] else [])).
{ unfold window.trait_hints.
  change (int_of_bool (window_specification.BORDERED =? 0)) with 0.
  change (int_of_bool (window_specification.FOCUSED =? 0)) with 0.
  change (int_of_bool (window_specification.RESIZABLE =? 0)) with 0.
  rewrite !land_0_r_false. reflexivity. }
split; [exact E|]. intros value. rewrite E.
destruct (bool_of_int (Z.land window_traits window_specification.CENTER_CURSOR)),
         (bool_of_int (Z.land window_traits window_specification.MAXIMIZED)),
         (bool_of_int (Z.land window_traits window_specification.TOPMOST)),
         (bool_of_int (Z.land window_traits window_specification.TRANSPARENT));
  simpl; repeat split; intros Hin;
  repeat (destruct Hin as [Hin|Hin]; [discriminate Hin|]); exact Hin.
Qed.

Lemma trait_hints_calls (window_traits : Z) :
  forall c, In c (window.trait_hints window_traits) -> exists h v, c = glfwWindowHint h v.
Proof.
intros c. unfold window.trait_hints. rewrite !in_app_iff.
intros Hin.
repeat (destruct Hin as [Hin|Hin];
        [destruct (bool_of_int _); [destruct Hin as [<-|[]]; eauto | destruct Hin]|]).
destruct (bool_of_int _); [destruct Hin as [<-|[]]; eauto | destruct Hin].
Qed.

Lemma glfw_hints_pack_calls pairs hints :
  forall c, In c (fst (glfw_hints_pack pairs hints)) -> exists h v, c = glfwWindowHint h v.
Proof.
induction pairs as [|[h v] rest IH]; intros c.
- cbn [glfw_hints_pack]. unfold glfw_hints.
  destruct (negb _); [intros []|]. destruct (_ =? _)%nat; [intros []|].
  cbn [fst]. generalize (length hints) at 1. generalize 0%nat.
  intros i fuel. revert i. induction fuel as [|fuel IHf]; intros i; [intros []|].
  cbn [glfw_hints_loop]. destruct (_ <? _)%nat; [|intros []].
  destruct (hints !! i) as [x|]; [|intros []].
  destruct (hints !! S i) as [y|]; [|intros []].
  intros [<-|Hin]; [eauto | now apply (IHf (i + 2)%nat)].
- cbn [glfw_hints_pack]. destruct (glfw_hints_pack rest hints) as [calls r].
  cbn [fst] in *. intros [<-|Hin]; [eauto | now apply IH].
Qed.

(** Splits [Hin : In c (l1 ++ ... ++ [c1; ...])] into its cases and closes
    those where [c] cannot be the call at hand. *)
Ltac call_cases Hin :=
  rewrite ?in_app_iff in Hin; cbn [In] in Hin;
  repeat match type of Hin with _ \/ _ => destruct Hin as [Hin|Hin] end;
  try (first
    [ discriminate Hin
    | destruct Hin; fail
    | match goal with
      | Hc : forall c, In c ?l -> c = _ |- _ =>
          match type of Hin with In _ l => apply Hc in Hin; discriminate Hin end
      end
    | match goal with
      | Hc : forall c, In c ?l -> exists h v, c = _ |- _ =>
          match type of Hin with
          | In _ l => apply Hc in Hin as (? & ? & Hin); discriminate Hin
          end
      end ]).

Lemma filter_no_create (l : list glfw_call) :
  (forall c, In c l -> is_create_window c = false) ->
  List.filter is_create_window l = [].
Proof.
induction l as [|c l IH]; intros Hl; [reflexivity|].
cbn [List.filter]. rewrite (Hl c) by now left.
apply IH. intros c' Hc'. apply Hl. now right.
Qed.

Section window_facts.

Context {F C : Type} (zero : F) (render logic : C).

(** How the construction of a window ends.  The width and the height
    passed to [glfwCreateWindow] are those of the specification, a value of
    0 or less being replaced by the default, and so are positive.  If the
    constructor returns, the window holds the handle [glfwCreateWindow]
    gave, which is not null, the primary monitor, and the position and size
    GLFW reports, owns the window and is flagged for a viewport update;
    [glfwCreateWindow] was called exactly
    once, with that width and height, and [glfwTerminate] was not called.
    If it throws, no window exists: [glfwCreateWindow] was not called, or
    was called once and returned null. *)
Theorem window_ctor_outcome (initialized : bool) (glfw : glfw_answers)
    (spec : window_specification.t) :
  let r := window.ctor zero render logic initialized glfw spec in
  let width := if window_specification.width spec <=? 0
               then k_default_window_width else window_specification.width spec in
  let height := if window_specification.height spec <=? 0
                then k_default_window_height else window_specification.height spec in
  let monitor := if bool_of_int (Z.land (window_specification.traits spec)
                                        window_specification.FULLSCREEN)
                 then primary_monitor glfw else 0 in
  let create := glfwCreateWindow width height (window_specification.title spec)
                  monitor (window_specification.shared_with spec) in
  0 < width /\ 0 < height /\
  (forall win, snd r = Ok win ->
     window.m_window win = created_window glfw /\
     created_window glfw <> 0 /\
     window.m_monitor win = primary_monitor glfw /\
     window.m_owning win = true /\
     window.m_update_viewport win = true /\
     window.m_position win = window_pos glfw /\
     window.m_size win = window_size glfw /\
     List.filter is_create_window (fst r) = [create] /\
     ~ In glfwTerminate (fst r)) /\
  (forall e, snd r = Throw e ->
     List.filter is_create_window (fst r) = [] \/
     (created_window glfw = 0 /\ List.filter is_create_window (fst r) = [create])).
Proof.
cbv zeta.
split; [destruct (Z.leb_spec (window_specification.width spec) 0);
          [reflexivity | assumption]|].
split; [destruct (Z.leb_spec (window_specification.height spec) 0);
          [reflexivity | assumption]|].
unfold window.ctor.
pose proof (glfw_hints_pack_calls
  [(GLFW_CONTEXT_VERSION_MAJOR, window_specification.major_version spec);
   (GLFW_CONTEXT_VERSION_MINOR, window_specification.minor_version spec);
   (GLFW_OPENGL_PROFILE, window_specification.opengl_profile spec);
   (GLFW_OPENGL_FORWARD_COMPAT, GL_TRUE)] (window_specification.hints spec)) as Hpack.
pose proof (trait_hints_calls (window_specification.traits spec)) as Htr.
set (c2 := window.trait_hints (window_specification.traits spec)) in *.
assert (Hinit : forall c, In c (fst (glfw_initialize initialized (init_result glfw))) ->
                          c = glfwInit).
{ unfold glfw_initialize. destruct initialized; [intros c []|].
  destruct (_ =? 0); intros c [<-|[]]; reflexivity. }
destruct (glfw_initialize initialized (init_result glfw)) as [c0 [f|e0]].
2:{ split; [discriminate|]. intros e _. left. cbn [fst] in *.
    apply filter_no_create. intros c Hc. now rewrite (Hinit c Hc). }
destruct (glfw_hints_pack _ _) as [c1 [u|e1]].
2:{ split; [discriminate|]. intros e _. left. cbn [fst] in *.
    apply filter_no_create. intros c Hin. apply in_app_iff in Hin as [Hin|Hin];
      [now rewrite (Hinit c Hin) | now destruct (Hpack c Hin) as (h & v & ->)]. }
cbn [fst] in *.
assert (H0 : List.filter is_create_window c0 = []).
{ apply filter_no_create. intros c Hc. now rewrite (Hinit c Hc). }
assert (H1 : List.filter is_create_window c1 = []).
{ apply filter_no_create. intros c Hc. now destruct (Hpack c Hc) as (h & v & ->). }
assert (H2 : List.filter is_create_window c2 = []).
{ apply filter_no_create. intros c Hc. now destruct (Htr c Hc) as (h & v & ->). }
destruct (primary_monitor glfw =? 0) eqn:Emon.
{ split; [discriminate|]. intros e _. left. cbn [fst].
  rewrite !List.filter_app, H0, H1, H2. reflexivity. }
destruct (created_window glfw =? 0) eqn:Ewin.
{ split; [discriminate|]. intros e _. right. split; [now apply Z.eqb_eq|]. cbn [fst].
  rewrite !List.filter_app, H0, H1, H2. reflexivity. }
split; [|discriminate].
intros win [= <-].
cbn [window.m_window window.m_monitor window.m_owning window.m_update_viewport
     window.m_position window.m_size fst].
split; [reflexivity|]. split; [now apply Z.eqb_neq|].
split; [reflexivity|]. split; [reflexivity|]. split; [reflexivity|].
split; [reflexivity|]. split; [reflexivity|]. split.
- rewrite !List.filter_app, H0, H1, H2.
  destruct (bool_of_int (Z.land _ window_specification.HIDE_CURSOR));
    [|destruct (bool_of_int (Z.land _ window_specification.DISABLE_CURSOR))];
    reflexivity.
- intros Hin.
  destruct (bool_of_int (Z.land _ window_specification.HIDE_CURSOR));
    [|destruct (bool_of_int (Z.land _ window_specification.DISABLE_CURSOR))];
    call_cases Hin.
Qed.

(** Moving a window.  The move constructor hands over every member but
    the position, which the new window does not take (it has position
    (0, 0)): the window and monitor handles, the sizes, the cursor state,
    the time, the callbacks, the key states and the four flags.  It leaves
    the source with null handles, no key states and not owning, its other
    members as they were, so that destroying the source destroys no window.
    The move assignment gives the destination the same members of the
    source, keeps the position of the destination and leaves the source in
    the same state, without destroying the window the destination held:
    whatever the destination held and owned, destroying both objects
    afterwards destroys the window of the source alone. *)
Theorem window_moves (self other : window.t F C) :
  let new := fst (window.move_ctor other) in
  let other' := snd (window.move_ctor other) in
  let r := window.move_assign self other in
  window_members_but_position new other /\
  window.m_position new = (0, 0) /\
  window_left_behind other' other /\
  window_members_but_position (fst r) other /\
  window.m_position (fst r) = window.m_position self /\
  snd r = other' /\
  window.dtor other' = [] /\
  window.dtor new = window.dtor other /\
  window.dtor (fst r) ++ window.dtor (snd r) = window.dtor other.
Proof.
cbv zeta.
unfold window_members_but_position, window_left_behind,
  window.move_ctor, window.move_assign, window.dtor. simpl.
repeat split. apply app_nil_r.
Qed.

End window_facts.

(** ** Log output *)

Lemma print_color_text (color : Z) (os : ostream) :
  text (print_color color os) = text os +:+ escape color.
Proof.
unfold escape, print_color.
destruct (g_update_previous_color os); cbn [g_update_previous_color text].
all: destruct (negb _).
all: try (destruct (text_color.to_rgb color) as [[r g] b]; reflexivity).
all: destruct (text_color.text_mode color =? 0), (text_color.color_mode color =? 0),
       (text_color.to_regular_color color =? 0),
       (text_color.to_regular_color_background color =? 0); reflexivity.
Qed.

Lemma print_color_previous (color : Z) (os : ostream) :
  g_previous_color (print_color color os) =
    (if g_update_previous_color os then Some color else g_previous_color os) /\
  g_update_previous_color (print_color color os) = g_update_previous_color os.
Proof.
unfold print_color.
destruct (g_update_previous_color os) eqn:Hu; cbn [g_update_previous_color text].
all: destruct (negb _).
all: try (destruct (text_color.to_rgb color) as [[r g] b]; cbn; now rewrite ?Hu).
all: destruct (text_color.text_mode color =? 0), (text_color.color_mode color =? 0),
       (text_color.to_regular_color color =? 0),
       (text_color.to_regular_color_background color =? 0); cbn; now rewrite ?Hu.
Qed.

Lemma to_regular_color_range (color : Z) :
  30 <= text_color.to_regular_color color <= 37.
Proof.
unfold text_color.to_regular_color. cbv zeta.
repeat (destruct (_ =? _); [lia|]). lia.
Qed.

Lemma to_regular_color_background_range (color : Z) :
  40 <= text_color.to_regular_color_background color <= 47.
Proof.
unfold text_color.to_regular_color_background. cbv zeta.
repeat (destruct (_ =? _); [lia|]). lia.
Qed.

Lemma string_app_nil_l (s : string) : "" +:+ s = s.
Proof. reflexivity. Qed.

(** A color with the [REGULAR] flag is printed as one escape sequence of
    its text mode and color mode, where they are set, then a foreground code
    and a background code.  Both of these are always written: the foreground
    code is between 30 and 37, 37 (white) unless the color names exactly one
    foreground color, and the background code between 40 and 47, 40 (black)
    unless it names exactly one background color; so a color that only sets
    a text mode or a foreground also paints the background black. *)
Theorem regular_color_codes (color : Z) :
  text_color.is_ color text_color.REGULAR = true ->
  let tm := text_color.text_mode color in
  let cm := text_color.color_mode color in
  let fg := text_color.to_regular_color color in
  let bg := text_color.to_regular_color_background color in
  escape color =
    ESC +:+ "[" +:+ (if tm =? 0 then "" else pretty tm +:+ ";")
        +:+ (if cm =? 0 then "" else pretty cm +:+ ";")
        +:+ pretty fg +:+ ";" +:+ pretty bg +:+ "m" /\
  30 <= fg <= 37 /\ 40 <= bg <= 47 /\
  (Z.land color text_color.MASK_REGULAR_FOREGROUND = 0 -> fg = 37) /\
  (Z.land color text_color.MASK_REGULAR_BACKGROUND = 0 -> bg = 40).
Proof.
intros Hreg tm cm fg bg.
pose proof (to_regular_color_range color) as Hfg.
pose proof (to_regular_color_background_range color) as Hbg.
fold fg in Hfg. fold bg in Hbg.
split; [|split; [exact Hfg|split; [exact Hbg|split]]].
- unfold escape, print_color. cbn [g_update_previous_color].
  rewrite Hreg. cbn [negb]. fold tm cm fg bg.
  destruct (Z.eqb_spec fg 0); [lia|]. destruct (Z.eqb_spec bg 0); [lia|].
  destruct (tm =? 0), (cm =? 0); cbn [write text];
    rewrite ?string_app_assoc, ?string_app_nil_l; reflexivity.
- intros H0. subst fg. unfold text_color.to_regular_color. rewrite H0. reflexivity.
- intros H0. subst bg. unfold text_color.to_regular_color_background. rewrite H0.
  reflexivity.
Qed.

Lemma regular_color_codes_witness :
  text_color.is_ colors.k_red text_color.REGULAR = true /\
  escape colors.k_red = ESC +:+ "[31;40m".
Proof.
split; [reflexivity|].
destruct (regular_color_codes colors.k_red eq_refl) as [H _].
exact H.
Defined.

Lemma from_rgb_value (r g b : Z) :
  0 <= r < 256 -> 0 <= g < 256 -> 0 <= b < 256 ->
  text_color.from_rgb r g b = r * 16777216 + g * 65536 + b * 256.
Proof.
intros Hr Hg Hb. unfold text_color.from_rgb, to_u32.
rewrite !Z.shiftl_mul_pow2 by lia.
change (2 ^ 24) with 16777216. change (2 ^ 16) with 65536. change (2 ^ 8) with 256.
change (2 ^ 32) with 4294967296.
rewrite (Z.mod_small (r * _)) by lia.
rewrite (Z.mod_small (g * _)) by lia.
rewrite (Z.mod_small (b * _)) by lia.
rewrite (Z.mod_small (r * _ + _)) by lia.
apply Z.mod_small. lia.
Qed.

(** A color made by [from_rgb] from three 8-bit channels is printed in the
    RGB form, and the three numbers printed are not the channels:
    [to_rgb] shifts without masking, so the first number is the whole
    24-bit value [r * 65536 + g * 256 + b], the second [r * 256 + g] and
    the third [r]. *)
Theorem rgb_color_prints_unmasked_channels (r g b : Z) :
  0 <= r < 256 -> 0 <= g < 256 -> 0 <= b < 256 ->
  text_color.to_rgb (text_color.from_rgb r g b) =
    (r * 65536 + g * 256 + b, r * 256 + g, r) /\
  escape (text_color.from_rgb r g b) =
    ESC +:+ "[38m" +:+ pretty (r * 65536 + g * 256 + b) +:+ ";"
        +:+ pretty (r * 256 + g) +:+ ";" +:+ pretty r +:+ ESC +:+ "[m".
Proof.
intros Hr Hg Hb.
assert (Hrgb : text_color.to_rgb (text_color.from_rgb r g b) =
               (r * 65536 + g * 256 + b, r * 256 + g, r)).
{ rewrite from_rgb_value by assumption. unfold text_color.to_rgb, text_color.MASK.
  change (2 ^ 32 - 1) with (Z.ones 32).
  rewrite !Z.land_ones, !Z.shiftr_div_pow2 by lia.
  change (2 ^ 24) with 16777216. change (2 ^ 16) with 65536. change (2 ^ 8) with 256.
  change (2 ^ 32) with 4294967296.
  replace ((r * 16777216 + g * 65536 + b * 256) / 256) with (r * 65536 + g * 256 + b)
    by (apply Z.div_unique with (r := 0); lia).
  replace ((r * 16777216 + g * 65536 + b * 256) / 65536) with (r * 256 + g)
    by (apply Z.div_unique with (r := b * 256); lia).
  replace ((r * 16777216 + g * 65536 + b * 256) / 16777216) with r
    by (apply Z.div_unique with (r := g * 65536 + b * 256); lia).
  rewrite !Z.mod_small by lia. reflexivity. }
split; [exact Hrgb|].
assert (Hreg : text_color.is_ (text_color.from_rgb r g b) text_color.REGULAR = false).
{ rewrite from_rgb_value by assumption. unfold text_color.is_, text_color.REGULAR.
  change 1 with (Z.ones 1) at 1. rewrite Z.land_ones by lia.
  replace (r * 16777216 + g * 65536 + b * 256)
    with (0 + (r * 8388608 + g * 32768 + b * 128) * 2 ^ 1) by lia.
  rewrite Z.mod_add by lia. reflexivity. }
unfold escape, print_color. cbn [g_update_previous_color].
rewrite Hreg, Hrgb. reflexivity.
Qed.

Lemma rgb_color_prints_unmasked_channels_witness :
  text_color.to_rgb (text_color.from_rgb 1 2 3) = (66051, 258, 1) /\
  escape (text_color.from_rgb 1 2 3) =
    ESC +:+ "[38m66051;258;1" +:+ ESC +:+ "[m".
Proof.
destruct (rgb_color_prints_unmasked_channels 1 2 3) as [H1 H2]; try lia.
split; [exact H1 | exact H2].
Defined.

(** [text_color::of] gives colors without the [REGULAR] flag for exactly
    the eight names it knows (a name it does not know gives the default
    color, regular white), so a named color is printed in the RGB form and
    not as its ANSI color code. *)
Theorem named_colors_are_not_regular (name : string) :
  (text_color.is_ (text_color.of_ name) text_color.REGULAR = false <->
   In name k_color_names) /\
  (In name k_color_names ->
   exists k, 0 <= k < 8 /\
     escape (text_color.of_ name) =
       ESC +:+ "[38m" +:+ pretty (2 ^ k) +:+ ";0;0" +:+ ESC +:+ "[m") /\
  (~ In name k_color_names -> text_color.of_ name = colors.k_white).
Proof.
unfold text_color.of_, k_color_names.
assert (Hhit : forall (k : Z) (c : Z),
  0 <= k < 8 -> c = 2 ^ (k + 8) ->
  (text_color.is_ c text_color.REGULAR = false <-> True) /\
  (exists k, 0 <= k < 8 /\
     escape c = ESC +:+ "[38m" +:+ pretty (2 ^ k) +:+ ";0;0" +:+ ESC +:+ "[m")).
{ intros k c Hk ->. assert (Hc : In k [0; 1; 2; 3; 4; 5; 6; 7]) by (cbn [In]; lia).
  cbn [In] in Hc.
  split; [split; [tauto | intros _] | exists k; split; [lia|]].
  all: repeat (destruct Hc as [<-|Hc]; [reflexivity|]); destruct Hc. }
repeat match goal with
| |- context [String.eqb name ?s] =>
    destruct (String.eqb_spec name s) as [->|?]
end.
9: { split; [split; [discriminate | cbn [In]; intuition congruence]|].
     split; [cbn [In]; intuition congruence | reflexivity]. }
1: destruct (Hhit 0 text_color.BLACK) as [H1 H2]; [lia | reflexivity |].
2: destruct (Hhit 1 text_color.RED) as [H1 H2]; [lia | reflexivity |].
3: destruct (Hhit 2 text_color.GREEN) as [H1 H2]; [lia | reflexivity |].
4: destruct (Hhit 3 text_color.YELLOW) as [H1 H2]; [lia | reflexivity |].
5: destruct (Hhit 4 text_color.BLUE) as [H1 H2]; [lia | reflexivity |].
6: destruct (Hhit 5 text_color.PURPLE) as [H1 H2]; [lia | reflexivity |].
7: destruct (Hhit 6 text_color.CYAN) as [H1 H2]; [lia | reflexivity |].
8: destruct (Hhit 7 text_color.WHITE) as [H1 H2]; [lia | reflexivity |].
all: (split; [split; [intros _; cbn [In]; tauto | intros _; now apply H1]|];
      split; [intros _; exact H2 | intros Hn; exfalso; apply Hn; cbn [In]; tauto]).
Qed.

Lemma typed_message_diverges (fuel : nat) :
  forall m os,
    message.type m = message.INFO \/ message.type m = message.WARNING \/
    message.type m = message.ERROR ->
    print_message fuel m os = None /\
    forall color, print_colored fuel (colored_message.mk m color) os = None.
Proof.
induction fuel as [|fuel IH]; intros m os Hty; [split; reflexivity|].
split.
- cbn [print_message].
  assert (Hd : bool_of_int (Z.land (message.type m) message.DEBUG) = false)
    by (destruct Hty as [->|[->| ->]]; reflexivity).
  rewrite Hd. cbn [mbind option_bind].
  destruct Hty as [Hty'|[Hty'|Hty']]; rewrite Hty'; cbn [Z.eqb Pos.eqb message.INFO
    message.WARNING message.ERROR];
    (destruct (print_colored fuel _ os) as [os2|]; cbn [mbind option_bind];
     [apply IH; rewrite Hty'; tauto | reflexivity]).
- intros color. cbn [print_colored colored_message.color colored_message.msg].
  match goal with |- context [print_message fuel m ?o] =>
    rewrite (proj1 (IH m o Hty)) end.
  reflexivity.
Qed.

(** Printing a message returns exactly when its type is none of [INFO],
    [WARNING] and [ERROR].  For these three types the two stream operators
    call each other without end: the message is printed as a colored
    message of itself, which prints the message again.  For every other
    type three nested calls are enough. *)
Theorem print_message_returns_iff (m : message.t) (os : ostream) :
  (exists fuel, is_Some (print_message fuel m os)) <->
  (message.type m <> message.INFO /\ message.type m <> message.WARNING /\
   message.type m <> message.ERROR).
Proof.
split.
- intros [fuel [os' Hos']].
  assert (Hn : ~ (message.type m = message.INFO \/ message.type m = message.WARNING \/
                  message.type m = message.ERROR)).
  { intros Hty. destruct (typed_message_diverges fuel m os Hty) as [Hm _]. congruence. }
  tauto.
- intros (Hi & Hw & He). exists 3%nat.
  cbn [print_message print_colored colored_message.with_ colored_message.color
       colored_message.msg message.type message.content].
  change (bool_of_int (Z.land message.NONE message.DEBUG)) with false.
  change (message.NONE =? message.INFO) with false.
  change (message.NONE =? message.WARNING) with false.
  change (message.NONE =? message.ERROR) with false.
  destruct (Z.eqb_spec (message.type m) message.INFO); [contradiction|].
  destruct (Z.eqb_spec (message.type m) message.WARNING); [contradiction|].
  destruct (Z.eqb_spec (message.type m) message.ERROR); [contradiction|].
  destruct (bool_of_int _); cbn [mbind option_bind]; eexists; reflexivity.
Qed.

(** A colored message of plain text is printed as its color, its text and
    then the color the stream had before (the default color for a stream
    no color was printed to yet); the color remembered for the stream is
    that previous color, not the color of the message, and the colors
    printed afterwards are remembered again. *)
Theorem colored_message_restores_color (content : string) (color : Z) (os : ostream) :
  let previous := default colors.g_default_color (g_previous_color os) in
  print_colored 2 (colored_message.mk (message.mk content message.NONE) color) os =
    Some (Ostream (((text os +:+ escape color) +:+ content) +:+ escape previous)
                  (Some previous) true).
Proof.
intros previous.
cbn [print_colored print_message colored_message.color colored_message.msg
     message.type message.content].
change (bool_of_int (Z.land message.NONE message.DEBUG)) with false.
change (message.NONE =? message.INFO) with false.
change (message.NONE =? message.WARNING) with false.
change (message.NONE =? message.ERROR) with false.
cbn [mbind option_bind].
set (os0 := match g_previous_color os with Some _ => os | None => _ end).
assert (Hp0 : g_previous_color os0 = Some previous)
  by (subst os0 previous; destruct (g_previous_color os) eqn:E; [now rewrite E | reflexivity]).
assert (Ht0 : text os0 = text os)
  by (subst os0; destruct (g_previous_color os); reflexivity).
set (os1 := Ostream (text os0) (g_previous_color os0) false).
destruct (print_color_previous color os1) as [Hp1 Hu1].
pose proof (print_color_text color os1) as Ht1.
cbn [g_update_previous_color g_previous_color text os1] in Hp1, Hu1, Ht1.
set (os2 := write content (print_color color os1)).
assert (Hp2 : g_previous_color os2 = Some previous)
  by (subst os2; cbn [write g_previous_color]; congruence).
assert (Hu2 : g_update_previous_color os2 = false)
  by (subst os2; cbn [write g_update_previous_color]; exact Hu1).
assert (Ht2 : text os2 = (text os +:+ escape color) +:+ content)
  by (subst os2; cbn [write text]; now rewrite Ht1, Ht0).
rewrite Hp2. cbn [default from_option]. unfold id.
destruct (print_color_previous previous os2) as [Hp3 Hu3].
pose proof (print_color_text previous os2) as Ht3.
rewrite Hu2 in Hp3. rewrite Hp3, Ht3, Ht2, Hp2. reflexivity.
Qed.

